(** * CryptoHash.h: the generic digest context of Trinity::Impl

    A shallow embedding of [Trinity::Impl::GenericHash] and of its four
    instantiations [Trinity::Crypto::{MD5,SHA1,SHA256,SHA512}].

    The class owns a pointer to an [EVP_MD_CTX] of the primitive library and a
    [std::array<uint8, DIGEST_LENGTH>].  Objects are modelled in a store keyed
    by their address, engine contexts in a heap keyed by the pointer value, so
    that [this == &right], [std::exchange] on pointers and the exclusive
    ownership of a context read as they do in the header. *)

From stdpp Require Import base option list gmap strings.
From Stdlib Require Import ZArith.
From Stdlib.Strings Require Import Byte.

Set Default Proof Using "Type".

(** ** Execution outcomes *)

(** A call either returns a value and a new state, is halted by [ASSERT], or
    dereferences something that is not there (an object that was destroyed or
    never constructed, a null or dangling pointer to a context). *)
Inductive outcome (S A : Type) : Type :=
| Returns (a : A) (s : S)
| AssertFailed
| Undefined.
Arguments Returns {S A} a s.
Arguments AssertFailed {S A}.
Arguments Undefined {S A}.

Definition uint8 := byte.

(** ** The primitive library *)

(** The values a [HashCreator] can return. *)
Inductive EVP_MD : Type := EVP_md5 | EVP_sha1 | EVP_sha256 | EVP_sha512.

(** What the header consumes from <openssl/evp.h>: the contents of an
    [EVP_MD_CTX] and the five calls made on it.  Every call returns the [int]
    result of the C function and the new contents of the context it writes;
    [EVP_DigestFinal_ex] also returns the bytes it stores at [md], whose
    number is what it stores in [*isize]. *)
Record Engine : Type := {
  EVP_MD_CTX : Type;
  EVP_MD_CTX_new : EVP_MD_CTX;
  EVP_DigestInit_ex : EVP_MD_CTX → EVP_MD → Z * EVP_MD_CTX;
  EVP_DigestUpdate : EVP_MD_CTX → list uint8 → Z * EVP_MD_CTX;
  EVP_DigestFinal_ex : EVP_MD_CTX → Z * EVP_MD_CTX * list uint8;
  EVP_MD_CTX_copy_ex : EVP_MD_CTX → EVP_MD_CTX → Z * EVP_MD_CTX;
}.

(** ** The class *)

(** The two data members.  [_ctx = None] is [nullptr]. *)
Record GenericHash : Type := {
  _ctx : option positive;
  _digest : list uint8;
}.

Section Wrapper.
Context (E : Engine).

(** The heap of engine contexts and the store of [GenericHash] objects. *)
Record World : Type := {
  heap : gmap positive (EVP_MD_CTX E);
  objects : gmap positive GenericHash;
}.

Definition M (A : Type) : Type := World → outcome World A.

#[export] Instance M_ret : MRet M := λ A a w, Returns a w.
#[export] Instance M_bind : MBind M := λ A B f m w,
  match m w with
  | Returns a w' => f a w'
  | AssertFailed => AssertFailed
  | Undefined => Undefined
  end.

(** Modelled from the spec: [ASSERT] is a macro of Errors.h, which is not
    among the sources; the spec has a failed check halt execution at once
    with a diagnostic, nothing being returned to the caller. *)
Definition ASSERT (cond : bool) : M unit :=
  λ w, if cond then Returns () w else AssertFailed.

(** Reading and writing the members of the object at address [this]. *)
Definition load (this : positive) : M GenericHash :=
  λ w, match objects w !! this with
       | Some o => Returns o w
       | None => Undefined
       end.

Definition store (this : positive) (o : GenericHash) : M unit :=
  λ w, Returns () {| heap := heap w; objects := <[this := o]> (objects w) |}.

Definition set_ctx (this : positive) (p : option positive) : M unit :=
  o ← load this; store this {| _ctx := p; _digest := _digest o |}.

Definition set_digest (this : positive) (d : list uint8) : M unit :=
  o ← load this; store this {| _ctx := _ctx o; _digest := d |}.

(** A call of the primitive library on the context [ctx] points to: the
    context is read, the call made, the context written back and the [int]
    returned. *)
Definition on_ctx {A} (ctx : option positive)
    (call : EVP_MD_CTX E → A * EVP_MD_CTX E) : M A :=
  λ w, match ctx with
       | Some p =>
           match heap w !! p with
           | Some c =>
               let '(r, c') := call c in
               Returns r {| heap := <[p := c']> (heap w); objects := objects w |}
           | None => Undefined
           end
       | None => Undefined
       end.

Definition read_ctx (ctx : option positive) : M (EVP_MD_CTX E) :=
  λ w, match ctx with
       | Some p =>
           match heap w !! p with
           | Some c => Returns c w
           | None => Undefined
           end
       | None => Undefined
       end.

(** [GenericHashImpl::MakeCTX]: [EVP_MD_CTX_new()], a context at an address
    no live context has.  (The run in which the allocation fails is
    [MakeCTX_null].) *)
Definition MakeCTX : M (option positive) :=
  λ w, let p := fresh (dom (heap w)) in
       Returns (Some p)
         {| heap := <[p := EVP_MD_CTX_new E]> (heap w); objects := objects w |}.

(** [GenericHashImpl::MakeCTX] in the run in which [EVP_MD_CTX_new()] cannot
    allocate: the library returns the null pointer and [MakeCTX] hands it
    on as it is; nothing is added to the heap. *)
Definition MakeCTX_null : M (option positive) :=
  λ w, Returns None w.

(** [GenericHashImpl::DestroyCTX]: [EVP_MD_CTX_free(ctx)]. *)
Definition DestroyCTX (ctx : option positive) : M unit :=
  λ w, match ctx with
       | Some p => Returns () {| heap := delete p (heap w); objects := objects w |}
       | None => Returns () w
       end.

Section Template.
(** The template parameters. *)
Context (HashCreator : EVP_MD) (DigestLength : nat).

Definition DIGEST_LENGTH : nat := DigestLength.

(** [Digest{}], also the default member initializer [_digest = { }]. *)
Definition Digest_zero : list uint8 := replicate DIGEST_LENGTH x00.

(** Storage for a new object at [this]: [_ctx] is indeterminate until a
    constructor writes it (shown as [nullptr]), [_digest] is [{ }]. *)
Definition emplace (this : positive) : M unit :=
  store this {| _ctx := None; _digest := Digest_zero |}.

(** [GenericHash()] *)
Definition GenericHash_ctor (this : positive) : M unit :=
  emplace this;;
  p ← MakeCTX;
  set_ctx this p;;
  result ← on_ctx p (λ c, EVP_DigestInit_ex E c HashCreator);
  ASSERT (result =? 1)%Z.

(** [GenericHash()] with the run of [MakeCTX] made explicit: the member
    initializer [_ctx(GenericHashImpl::MakeCTX())], then the body, which
    calls [EVP_DigestInit_ex] on [_ctx] with no test of the pointer
    before it.  With [MakeCTX] for [make] this is [GenericHash_ctor]. *)
Definition GenericHash_ctor_with (make : M (option positive))
    (this : positive) : M unit :=
  emplace this;;
  p ← make;
  set_ctx this p;;
  result ← on_ctx p (λ c, EVP_DigestInit_ex E c HashCreator);
  ASSERT (result =? 1)%Z.

(** [GenericHash& operator=(GenericHash const& right)] *)
Definition assign_copy (this right : positive) : M unit :=
  if decide (this = right) then mret ()
  else
    l ← load this;
    r ← load right;
    src ← read_ctx (_ctx r);
    result ← on_ctx (_ctx l) (λ out, EVP_MD_CTX_copy_ex E out src);
    ASSERT (result =? 1)%Z;;
    r ← load right;
    set_digest this (_digest r).

(** [GenericHash& operator=(GenericHash&& right) noexcept] *)
Definition assign_move (this right : positive) : M unit :=
  if decide (this = right) then mret ()
  else
    fresh_ctx ← MakeCTX;
    r ← load right;
    set_ctx right fresh_ctx;;
    set_ctx this (_ctx r);;
    r ← load right;
    set_digest right Digest_zero;;
    set_digest this (_digest r).

(** [GenericHash(GenericHash const& right)] *)
Definition GenericHash_copy_ctor (this right : positive) : M unit :=
  emplace this;;
  p ← MakeCTX;
  set_ctx this p;;
  assign_copy this right.

(** [GenericHash(GenericHash&& right) noexcept] *)
Definition GenericHash_move_ctor (this right : positive) : M unit :=
  emplace this;;
  assign_move this right.

(** The end of the storage of the object at [this]. *)
Definition release (this : positive) : M unit :=
  λ w, Returns () {| heap := heap w; objects := delete this (objects w) |}.

(** [~GenericHash()], after which the storage of the object ends. *)
Definition GenericHash_dtor (this : positive) : M unit :=
  o ← load this;
  (match _ctx o with
   | None => mret ()
   | Some p => DestroyCTX (Some p);; set_ctx this None
   end);;
  release this.

(** [void UpdateData(uint8 const* data, size_t len)]: [data] are the [len]
    bytes at the pointer. *)
Definition UpdateData (this : positive) (data : list uint8) : M unit :=
  o ← load this;
  result ← on_ctx (_ctx o) (λ c, EVP_DigestUpdate E c data);
  ASSERT (result =? 1)%Z.

(** [void UpdateData(std::string_view str)] *)
Definition UpdateData_string_view (this : positive) (str : list uint8) : M unit :=
  UpdateData this str.

(** [void UpdateData(std::string const& str)] *)
Definition UpdateData_string (this : positive) (str : list uint8) : M unit :=
  UpdateData_string_view this str.

(** [std::string_view] made from a [char const*]: the characters from the
    pointer up to the first NUL, [std::char_traits<char>::length] of
    them.  [mem] is the memory from the pointer on; that of a C string
    holds a NUL. *)
Fixpoint strlen (mem : list uint8) : nat :=
  match mem with
  | [] => 0
  | c :: mem' => if Byte.eqb c x00 then 0 else S (strlen mem')
  end.

Definition string_view_of_cstr (mem : list uint8) : list uint8 :=
  take (strlen mem) mem.

(** [void UpdateData(char const* str)] *)
Definition UpdateData_cstr (this : positive) (str : list uint8) : M unit :=
  UpdateData_string_view this (string_view_of_cstr str).

(** [template <typename Container> void UpdateData(Container const& c)]:
    [std::data(c)] and [std::size(c)] of a container of [uint8]. *)
Definition UpdateData_container (this : positive) (c : list uint8) : M unit :=
  UpdateData this c.

(** The bytes of [_digest] after [EVP_DigestFinal_ex] has stored [out]
    from [_digest.data()] on.  (An [out] longer than the array would run
    past it; the assertion on the length halts such a run.) *)
Definition write_at_data (out old : list uint8) : list uint8 :=
  out ++ drop (length out) old.

(** [void Finalize()] *)
Definition Finalize (this : positive) : M unit :=
  o ← load this;
  '(result, out) ← on_ctx (_ctx o) (λ c,
      let '(r, c', out) := EVP_DigestFinal_ex E c in ((r, out), c'));
  set_digest this (write_at_data out (_digest o));;
  ASSERT (result =? 1)%Z;;
  ASSERT (length out =? DIGEST_LENGTH)%nat.

(** [Digest const& GetDigest() const] *)
Definition GetDigest (this : positive) : M (list uint8) :=
  o ← load this; mret (_digest o).

(** A local variable [GenericHash hash;] lives at an address no live
    object has. *)
Definition local : M positive :=
  λ w, Returns (fresh (dom (objects w))) w.

(** [static Digest GetDigestOf(uint8 const* data, size_t len)] *)
Definition GetDigestOf (data : list uint8) : M (list uint8) :=
  hash ← local;
  GenericHash_ctor hash;;
  UpdateData hash data;;
  Finalize hash;;
  d ← GetDigest hash;
  GenericHash_dtor hash;;
  mret d.

(** What the variadic overload can be handed: each argument is fed through
    the [UpdateData] overload that its type selects. *)
Inductive item : Type :=
| a_string_view (str : list uint8)
| a_string (str : list uint8)
| a_cstr (str : list uint8)
| a_container (c : list uint8).

Definition UpdateData_item (this : positive) (x : item) : M unit :=
  match x with
  | a_string_view s => UpdateData_string_view this s
  | a_string s => UpdateData_string this s
  | a_cstr s => UpdateData_cstr this s
  | a_container c => UpdateData_container this c
  end.

(** The fold expression [(hash.UpdateData(std::forward<Ts>(pack)), ...)]. *)
Fixpoint UpdateData_pack (this : positive) (pack : list item) : M unit :=
  match pack with
  | [] => mret ()
  | x :: pack' => UpdateData_item this x;; UpdateData_pack this pack'
  end.

(** [template <typename... Ts, ...> static Digest GetDigestOf(Ts&&... pack)] *)
Definition GetDigestOf_pack (pack : list item) : M (list uint8) :=
  hash ← local;
  GenericHash_ctor hash;;
  UpdateData_pack hash pack;;
  Finalize hash;;
  d ← GetDigest hash;
  GenericHash_dtor hash;;
  mret d.

End Template.
End Wrapper.

Arguments heap {E} w.
Arguments objects {E} w.

(** ** The reference primitive library *)

(** The header leaves the mathematics and the bookkeeping of a context to
    OpenSSL.  The statements about digests are made over the following model
    of the five calls, which keeps, for a context, the digest it was
    initialised for, the bytes it has absorbed and whether it was finalised.
    On a context that was initialised and not finalised it is the documented
    behaviour of the EVP interface, and every digest stated further on is
    computed by [EVP_DigestFinal_ex] on such a context.  On a finalised
    context the releases of the library differ: some refuse a further update
    or final, as the model does, others carry on and store another digest. *)

(** The digest sizes of the four message digests ([EVP_MD_get_size]). *)
Definition EVP_MD_size (type : EVP_MD) : nat :=
  match type with
  | EVP_md5 => 16
  | EVP_sha1 => 20
  | EVP_sha256 => 32
  | EVP_sha512 => 64
  end.

(** The mathematics of the digests is not part of the header: a primitive is
    any function from messages to digests of the size of its algorithm. *)
Record Primitive : Type := {
  message_digest : EVP_MD → list uint8 → list uint8;
  message_digest_length type msg :
    length (message_digest type msg) = EVP_MD_size type;
}.

(** The contents of an [EVP_MD_CTX], as far as the five calls can tell: the
    digest it was initialised for ([None] after [EVP_MD_CTX_new]), the bytes
    absorbed since, and [EVP_MD_CTX_FLAG_FINALISED]. *)
Record md_ctx : Type := {
  ctx_digest : option EVP_MD;
  ctx_absorbed : list uint8;
  ctx_finalised : bool;
}.

Section OpenSSL.
Context (P : Primitive).

Definition md_ctx_new : md_ctx :=
  {| ctx_digest := None; ctx_absorbed := []; ctx_finalised := false |}.

(** [EVP_DigestInit_ex(ctx, type, NULL)] with a digest [type]. *)
Definition DigestInit_ex (ctx : md_ctx) (type : EVP_MD) : Z * md_ctx :=
  (1%Z, {| ctx_digest := Some type; ctx_absorbed := []; ctx_finalised := false |}).

(** [EVP_DigestUpdate(ctx, data, count)]: returns 1 at once for
    [count == 0]; returns 0 on a finalised context and on one that has no
    digest; otherwise absorbs the bytes. *)
Definition DigestUpdate (ctx : md_ctx) (data : list uint8) : Z * md_ctx :=
  match data with
  | [] => (1%Z, ctx)
  | _ :: _ =>
      if ctx_finalised ctx then (0%Z, ctx)
      else match ctx_digest ctx with
           | None => (0%Z, ctx)
           | Some type =>
               (1%Z, {| ctx_digest := Some type;
                        ctx_absorbed := ctx_absorbed ctx ++ data;
                        ctx_finalised := false |})
           end
  end.

(** [EVP_DigestFinal_ex(ctx, md, &size)]: returns 0 on a context that has
    no digest and on a finalised one; otherwise stores the digest of what
    was absorbed, and its size, and flags the context as finalised. *)
Definition DigestFinal_ex (ctx : md_ctx) : Z * md_ctx * list uint8 :=
  match ctx_digest ctx with
  | None => (0%Z, ctx, [])
  | Some type =>
      if ctx_finalised ctx then (0%Z, ctx, [])
      else (1%Z,
            {| ctx_digest := Some type;
               ctx_absorbed := ctx_absorbed ctx;
               ctx_finalised := true |},
            message_digest P type (ctx_absorbed ctx))
  end.

(** [EVP_MD_CTX_copy_ex(out, in)]: [out] becomes a duplicate of [in], flags
    included. *)
Definition MD_CTX_copy_ex (out inp : md_ctx) : Z * md_ctx := (1%Z, inp).

Definition openssl : Engine :=
  {| EVP_MD_CTX := md_ctx;
     EVP_MD_CTX_new := md_ctx_new;
     EVP_DigestInit_ex := DigestInit_ex;
     EVP_DigestUpdate := DigestUpdate;
     EVP_DigestFinal_ex := DigestFinal_ex;
     EVP_MD_CTX_copy_ex := MD_CTX_copy_ex |}.
End OpenSSL.

(** A primitive to run the model on concrete inputs: every byte of the digest
    is the sum of the bytes of the message modulo 256. *)
Definition byte_sum (msg : list uint8) : N :=
  foldr (λ b acc, ((Byte.to_N b + acc) `mod` 256)%N) 0%N msg.

Definition checksum_digest (type : EVP_MD) (msg : list uint8) : list uint8 :=
  replicate (EVP_MD_size type) (default x00 (Byte.of_N (byte_sum msg))).

Definition checksum : Primitive :=
  {| message_digest := checksum_digest;
     message_digest_length type msg := length_replicate _ _ |}.

(** A primitive library in which every call reports failure. *)
Definition failing : Engine :=
  {| EVP_MD_CTX := unit;
     EVP_MD_CTX_new := ();
     EVP_DigestInit_ex := λ _ _, (0%Z, ());
     EVP_DigestUpdate := λ _ _, (0%Z, ());
     EVP_DigestFinal_ex := λ _, (0%Z, (), []);
     EVP_MD_CTX_copy_ex := λ _ _, (0%Z, ()) |}.

(** ** The instantiations *)

Module Constants.
(** Modelled from the spec: CryptoConstants.h is not among the sources; the
    spec gives the digest length of MD5 as 16 bytes. *)
Definition MD5_DIGEST_LENGTH_BYTES : nat := 16.

(** Modelled from the spec: the digest length of SHA-1 is 20 bytes. *)
Definition SHA1_DIGEST_LENGTH_BYTES : nat := 20.

(** Modelled from the spec: the digest length of SHA-256 is 32 bytes. *)
Definition SHA256_DIGEST_LENGTH_BYTES : nat := 32.

(** Modelled from the spec: the digest length of SHA-512 is 64 bytes. *)
Definition SHA512_DIGEST_LENGTH_BYTES : nat := 64.
End Constants.

Module Crypto.
(** The four aliases of namespace [Trinity::Crypto]. *)
Inductive algorithm : Type := MD5 | SHA1 | SHA256 | SHA512.

(** The first template argument of each alias. *)
Definition creator (a : algorithm) : EVP_MD :=
  match a with
  | MD5 => EVP_md5
  | SHA1 => EVP_sha1
  | SHA256 => EVP_sha256
  | SHA512 => EVP_sha512
  end.

(** The second template argument of each alias. *)
Definition digest_length (a : algorithm) : nat :=
  match a with
  | MD5 => Constants.MD5_DIGEST_LENGTH_BYTES
  | SHA1 => Constants.SHA1_DIGEST_LENGTH_BYTES
  | SHA256 => Constants.SHA256_DIGEST_LENGTH_BYTES
  | SHA512 => Constants.SHA512_DIGEST_LENGTH_BYTES
  end.
End Crypto.

Definition empty_world {E} : World E := {| heap := ∅; objects := ∅ |}.

Import Crypto.

(** ** Vocabulary of the statements *)

(** An initialised context that has absorbed [absorbed] and was not finalised,
    and the same context after [EVP_DigestFinal_ex]. *)
Definition active (type : EVP_MD) (absorbed : list uint8) : md_ctx :=
  {| ctx_digest := Some type; ctx_absorbed := absorbed; ctx_finalised := false |}.

Definition finalised (type : EVP_MD) (absorbed : list uint8) : md_ctx :=
  {| ctx_digest := Some type; ctx_absorbed := absorbed; ctx_finalised := true |}.

(** The bytes an argument of the variadic overload stands for, and the
    concatenation of the bytes of a pack, in argument order. *)
Definition bytes_of (x : item) : list uint8 :=
  match x with
  | a_string_view str => str
  | a_string str => str
  | a_cstr str => string_view_of_cstr str
  | a_container c => c
  end.

Definition pack_bytes (pack : list item) : list uint8 :=
  concat (bytes_of <$> pack).

(** The state a run ends in (the empty state if it does not return). *)
Definition final_world {E A} (o : outcome (World E) A) : World E :=
  match o with
  | Returns _ w => w
  | _ => empty_world
  end.

(** The same further sequence of [UpdateData] calls applied to two objects,
    each then finalized: the pair of their digests. *)
Definition finalize_both (E : Engine) (DL : nat) (this right : positive)
    (post : list item) : M E (list uint8 * list uint8) :=
  UpdateData_pack E this post;;
  Finalize E DL this;;
  d1 ← GetDigest E this;
  UpdateData_pack E right post;;
  Finalize E DL right;;
  d2 ← GetDigest E right;
  mret (d1, d2).

(** The object at [this] owns the context at [p], whose contents are [c], and
    stores the digest [d]. *)
Definition owns {E : Engine} (w : World E) (this p : positive)
    (c : EVP_MD_CTX E) (d : list uint8) : Prop :=
  objects w !! this = Some {| _ctx := Some p; _digest := d |} ∧
  heap w !! p = Some c.

(** What a move leaves behind: [this] owns the context and the digest that
    [right] had, and [right] owns a context newly made by [MakeCTX], as
    [EVP_MD_CTX_new] returned it, and the zero digest. *)
Definition moved {E : Engine} (DL : nat) (w w' : World E)
    (this right pr : positive) (cr : EVP_MD_CTX E) (dr : list uint8) : Prop :=
  ∃ p',
    heap w !! p' = None ∧
    owns w' this pr cr dr ∧
    owns w' right p' (EVP_MD_CTX_new E) (Digest_zero DL).

(** An object on which [Finalize], and [UpdateData] of a non-empty sequence,
    stop at [ASSERT]. *)
Definition unusable (P : Primitive) (DL : nat) (w : World (openssl P))
    (this : positive) : Prop :=
  Finalize (openssl P) DL this w = AssertFailed ∧
  ∀ data, data ≠ [] → UpdateData (openssl P) this data w = AssertFailed.

(** Two MD5 contexts at addresses 1 and 2, the first having absorbed "abc". *)
Definition two_contexts : World (openssl checksum) :=
  final_world
    ((GenericHash_ctor (openssl checksum) (creator MD5) (digest_length MD5) 1;;
      GenericHash_ctor (openssl checksum) (creator MD5) (digest_length MD5) 2;;
      UpdateData (openssl checksum) 1 [x61; x62; x63]) empty_world).

(** An object at address 1 that owns a context of the failing library. *)
Definition failing_world : World failing :=
  {| heap := {[ 1%positive := () ]};
     objects := {[ 1%positive := {| _ctx := Some 1%positive;
                                    _digest := replicate 16 x00 |} ]} |}.

(** The calls a program makes on the objects of one instantiation. *)
Inductive call : Type :=
| call_ctor (this : positive)
| call_copy_ctor (this right : positive)
| call_move_ctor (this right : positive)
| call_assign_copy (this right : positive)
| call_assign_move (this right : positive)
| call_UpdateData (this : positive) (x : item)
| call_Finalize (this : positive)
| call_dtor (this : positive).

Definition perform (E : Engine) (HC : EVP_MD) (DL : nat) (c : call) : M E unit :=
  match c with
  | call_ctor this => GenericHash_ctor E HC DL this
  | call_copy_ctor this other => GenericHash_copy_ctor E DL this other
  | call_move_ctor this other => GenericHash_move_ctor E DL this other
  | call_assign_copy this other => assign_copy E this other
  | call_assign_move this other => assign_move E DL this other
  | call_UpdateData this x => UpdateData_item E this x
  | call_Finalize this => Finalize E DL this
  | call_dtor this => GenericHash_dtor E this
  end.

Fixpoint perform_all (E : Engine) (HC : EVP_MD) (DL : nat) (cs : list call) : M E unit :=
  match cs with
  | [] => mret ()
  | c :: cs' => perform E HC DL c;; perform_all E HC DL cs'
  end.

(** An MD5 context is fed "abc" and finalized, a second one is assigned a
    copy of it, and a third one is move-constructed from the first. *)
Definition copy_and_move_after_finalize : list call :=
  [call_ctor 1; call_UpdateData 1 (a_string [x61; x62; x63]); call_Finalize 1;
   call_ctor 2; call_assign_copy 2 1; call_move_ctor 3 1].

Definition after_copy_and_move : World (openssl checksum) :=
  final_world
    (perform_all (openssl checksum) (creator MD5) (digest_length MD5)
       copy_and_move_after_finalize empty_world).

(** ** The constraint of the variadic overload *)

Module Overload.
(** The integer types: [bool], the character types and the signed and
    unsigned integer types. *)
Inductive integer_type : Type :=
| ty_bool | ty_char | ty_signed_char | ty_unsigned_char
| ty_wchar_t | ty_char16_t | ty_char32_t
| ty_short | ty_unsigned_short | ty_int | ty_unsigned_int
| ty_long | ty_unsigned_long | ty_long_long | ty_unsigned_long_long.

(** Object types, as far as [std::is_integral] tells them apart
    (cv-qualifiers do not matter to it and are left out). *)
Inductive object_type : Type :=
| integer (i : integer_type)
| floating_point
| pointer_to (pointee : object_type)
| array_of (element : object_type) (size : nat)
| class_or_enum (name : string).

(** The types a template argument [Ts] can be. *)
Inductive type : Type :=
| object (t : object_type)
| lvalue_reference (t : object_type)
| rvalue_reference (t : object_type).

(** [std::is_integral<T>::value]: true for the integer types only; a
    reference to an integer is not an integral type. *)
Definition is_integral (T : type) : bool :=
  match T with
  | object (integer _) => true
  | _ => false
  end.

(** An argument expression: its type and its value category. *)
Inductive category : Type := lvalue | rvalue.

Record argument : Type := {
  arg_type : object_type;
  arg_category : category;
}.

(** Deduction of [Ts] for the forwarding reference [Ts&&... pack]: [T&] for
    an lvalue of type [T], [T] for an rvalue. *)
Definition deduce (x : argument) : type :=
  match arg_category x with
  | lvalue => lvalue_reference (arg_type x)
  | rvalue => object (arg_type x)
  end.

(** [std::conjunction_v<std::negation<std::is_integral<Ts>>...>], the
    condition of the [std::enable_if_t]. *)
Definition enabled (Ts : list type) : bool :=
  forallb (λ T, negb (is_integral T)) Ts.

(** The variadic [GetDigestOf] takes part in overload resolution for a call
    with the arguments [pack]. *)
Definition participates (pack : list argument) : bool :=
  enabled (deduce <$> pack).

(** The argument is a value of integer type. *)
Definition integer_valued (x : argument) : bool :=
  match arg_type x with
  | integer _ => true
  | _ => false
  end.
End Overload.

(** ** Vocabulary of the further properties *)

(** Every stored digest has [DL] bytes, every [_ctx] that is not null points
    to a live context, and no two objects hold the same pointer. *)
Definition well_owned {E : Engine} (DL : nat) (w : World E) : Prop :=
  (∀ this o, objects w !! this = Some o → length (_digest o) = DL) ∧
  (∀ this o p, objects w !! this = Some o → _ctx o = Some p →
     is_Some (heap w !! p)) ∧
  (∀ x y ox oy p, objects w !! x = Some ox → objects w !! y = Some oy →
     _ctx ox = Some p → _ctx oy = Some p → x = y).

(** [GenericHash x(std::move(x))], an object move-constructed from itself:
    the move constructor has no initializer for [_ctx] and [operator=]
    returns at once when [this == &right], so [_ctx] is never written and
    its value is indeterminate. *)
Definition self_move_construction (op : call) : bool :=
  match op with
  | call_move_ctor this other => bool_decide (this = other)
  | _ => false
  end.

(** The objects a call may write to: [this], and for a move also [right],
    which is passed by non-const reference. *)
Definition written (op : call) : list positive :=
  match op with
  | call_ctor this => [this]
  | call_copy_ctor this _ => [this]
  | call_move_ctor this other => [this; other]
  | call_assign_copy this _ => [this]
  | call_assign_move this other => [this; other]
  | call_UpdateData this _ => [this]
  | call_Finalize this => [this]
  | call_dtor this => [this]
  end.

(** No object of the state holds the pointer [p]. *)
Definition unowned {E : Engine} (w : World E) (p : positive) : Prop :=
  ∀ this o, objects w !! this = Some o → _ctx o ≠ Some p.

(** The contents of a context after [EVP_DigestUpdate] was called on it with
    each of [chunks] in turn. *)
Definition absorb_all (E : Engine) (c : EVP_MD_CTX E)
    (chunks : list (list uint8)) : EVP_MD_CTX E :=
  foldl (λ c x, (EVP_DigestUpdate E c x).2) c chunks.

(** * Running the methods *)

Ltac unfold_methods :=
  cbv [GenericHash_ctor GenericHash_copy_ctor GenericHash_move_ctor
       GenericHash_dtor assign_copy assign_move UpdateData
       UpdateData_string_view UpdateData_string UpdateData_cstr
       UpdateData_container Finalize GetDigest emplace release local
       set_ctx set_digest store load on_ctx read_ctx MakeCTX DestroyCTX
       ASSERT mbind M_bind mret M_ret].

Section Execution.
Context {E : Engine}.
Implicit Types (w : World E) (this right p : positive).

Lemma run_bind {A B} (m : M E A) (f : A → M E B) w :
  (m ≫= f) w =
  match m w with
  | Returns a w' => f a w'
  | AssertFailed => AssertFailed
  | Undefined => Undefined
  end.
Proof. reflexivity. Qed.

Lemma world_eta w : {| heap := heap w; objects := objects w |} = w.
Proof. by destruct w. Qed.

Lemma fresh_ctx_unused w : heap w !! fresh (dom (heap w)) = None.
Proof. apply not_elem_of_dom, is_fresh. Qed.

Lemma fresh_object_unused w : objects w !! fresh (dom (objects w)) = None.
Proof. apply not_elem_of_dom, is_fresh. Qed.

Lemma owns_fresh_ne w this p c d :
  owns w this p c d → p ≠ fresh (dom (heap w)).
Proof. intros [_ Hc] ->. by rewrite fresh_ctx_unused in Hc. Qed.

Lemma GenericHash_ctor_run HC DL w this :
  GenericHash_ctor E HC DL this w =
    let p := fresh (dom (heap w)) in
    let init := EVP_DigestInit_ex E (EVP_MD_CTX_new E) HC in
    if (init.1 =? 1)%Z
    then Returns ()
           {| heap := <[p := init.2]> (heap w);
              objects := <[this := {| _ctx := Some p;
                                      _digest := Digest_zero DL |}]> (objects w) |}
    else AssertFailed.
Proof.
  unfold_methods. simpl. rewrite !lookup_insert_eq. simpl.
  rewrite !lookup_insert_eq.
  destruct (EVP_DigestInit_ex E (EVP_MD_CTX_new E) HC) as [r c']. simpl.
  rewrite !insert_insert_eq. by destruct (r =? 1)%Z.
Qed.

Lemma UpdateData_run w this p c d data :
  owns w this p c d →
  UpdateData E this data w =
    let upd := EVP_DigestUpdate E c data in
    if (upd.1 =? 1)%Z
    then Returns () {| heap := <[p := upd.2]> (heap w); objects := objects w |}
    else AssertFailed.
Proof.
  intros [Ho Hc]. unfold_methods. rewrite Ho; simpl. rewrite Hc.
  destruct (EVP_DigestUpdate E c data) as [r c']; simpl.
  by destruct (r =? 1)%Z.
Qed.

Lemma Finalize_run DL w this p c d :
  owns w this p c d →
  Finalize E DL this w =
    let fin := EVP_DigestFinal_ex E c in
    if (fin.1.1 =? 1)%Z && (length fin.2 =? DL)%nat
    then Returns ()
           {| heap := <[p := fin.1.2]> (heap w);
              objects := <[this := {| _ctx := Some p;
                                      _digest := write_at_data fin.2 d |}]>
                           (objects w) |}
    else AssertFailed.
Proof.
  intros [Ho Hc]. unfold_methods. rewrite Ho; simpl. rewrite Hc.
  destruct (EVP_DigestFinal_ex E c) as [[r c'] out]; simpl.
  rewrite Ho. simpl.
  destruct (r =? 1)%Z; simpl; [|done].
  reflexivity.
Qed.

Lemma GetDigest_run w this :
  GetDigest E this w =
    match objects w !! this with
    | Some o => Returns (_digest o) w
    | None => Undefined
    end.
Proof. unfold_methods. by destruct (objects w !! this). Qed.

Lemma assign_copy_run w this right pl cl dl pr cr dr :
  this ≠ right →
  owns w this pl cl dl →
  owns w right pr cr dr →
  assign_copy E this right w =
    let cp := EVP_MD_CTX_copy_ex E cl cr in
    if (cp.1 =? 1)%Z
    then Returns ()
           {| heap := <[pl := cp.2]> (heap w);
              objects := <[this := {| _ctx := Some pl; _digest := dr |}]>
                           (objects w) |}
    else AssertFailed.
Proof.
  intros Hne [Hl Hcl] [Hr Hcr]. unfold assign_copy.
  rewrite decide_False by done. unfold_methods.
  rewrite Hl, Hr; simpl. rewrite Hcr, Hcl.
  destruct (EVP_MD_CTX_copy_ex E cl cr) as [r c']; simpl.
  destruct (r =? 1)%Z; [|done]. simpl. rewrite Hr. simpl. by rewrite Hl.
Qed.

Lemma assign_move_run DL w this right ol or :
  this ≠ right →
  objects w !! this = Some ol →
  objects w !! right = Some or →
  assign_move E DL this right w =
    Returns ()
      {| heap := <[fresh (dom (heap w)) := EVP_MD_CTX_new E]> (heap w);
         objects :=
           <[this := {| _ctx := _ctx or; _digest := _digest or |}]>
             (<[right := {| _ctx := Some (fresh (dom (heap w)));
                            _digest := Digest_zero DL |}]> (objects w)) |}.
Proof.
  intros Hne Hl Hr. unfold assign_move.
  rewrite decide_False by done. unfold_methods. simpl.
  repeat (first [ rewrite lookup_insert_eq
                | rewrite lookup_insert_ne by done
                | rewrite Hl | rewrite Hr ]; simpl).
  do 2 f_equal.
  apply map_eq; intros i.
  destruct (decide (i = this)) as [->|]; [by rewrite !lookup_insert_eq|].
  destruct (decide (i = right)) as [->|];
    repeat first [ rewrite lookup_insert_eq | rewrite lookup_insert_ne by done ];
    done.
Qed.

Lemma UpdateData_undefined w this data :
  (∀ p c d, ¬ owns w this p c d) → UpdateData E this data w = Undefined.
Proof.
  intros Hno. unfold_methods.
  destruct (objects w !! this) as [[[p|] d]|] eqn:Ho; simpl; try done.
  destruct (heap w !! p) as [c|] eqn:Hc. 2: { done. }
  by destruct (Hno p c d).
Qed.

Lemma owns_dec w this :
  (∃ p c d, owns w this p c d) ∨ (∀ p c d, ¬ owns w this p c d).
Proof.
  destruct (objects w !! this) as [[[p|] d]|] eqn:Ho.
  - destruct (heap w !! p) as [c|] eqn:Hc.
    + left. by exists p, c, d.
    + right. intros p' c' d' [Ho' Hc']. congruence.
  - right. intros p' c' d' [Ho' Hc']. congruence.
  - right. intros p' c' d' [Ho' Hc']. congruence.
Qed.

Lemma local_run (w : World E) : local E w = Returns (fresh (dom (objects w))) w.
Proof. reflexivity. Qed.

Lemma GenericHash_dtor_run w this p c d :
  owns w this p c d →
  GenericHash_dtor E this w =
    Returns () {| heap := delete p (heap w); objects := delete this (objects w) |}.
Proof.
  intros [Ho Hc]. unfold_methods. rewrite Ho; simpl. rewrite Ho; simpl.
  by rewrite delete_insert_eq.
Qed.

Lemma length_write_at_data (out old : list uint8) :
  length old ≤ length out → length (write_at_data out old) = length out.
Proof.
  intros Hlen. unfold write_at_data.
  rewrite length_app, length_drop. lia.
Qed.

(** Whatever the primitive library is, a digest that the one-shot returns
    has DIGEST_LENGTH bytes. *)
Lemma GetDigestOf_length HC DL data w w' d :
  GetDigestOf E HC DL data w = Returns d w' → length d = DIGEST_LENGTH DL.
Proof.
  unfold GetDigestOf. rewrite run_bind, local_run.
  set (hash := fresh (dom (objects w))).
  rewrite run_bind, GenericHash_ctor_run. simpl.
  destruct (_ =? 1)%Z; [|done].
  match goal with
  | |- context [mbind _ (UpdateData E hash data) ?w1] =>
      assert (Ho1 : owns w1 hash (fresh (dom (heap w)))
                      (EVP_DigestInit_ex E (EVP_MD_CTX_new E) HC).2
                      (Digest_zero DL))
        by (split; simpl; apply lookup_insert_eq)
  end.
  rewrite run_bind, (UpdateData_run _ _ _ _ _ _ Ho1). simpl.
  destruct (_ =? 1)%Z; [|done]. clear Ho1.
  match goal with
  | |- context [mbind _ (Finalize E DL hash) ?w2] =>
      assert (Ho2 : owns w2 hash (fresh (dom (heap w)))
                      (EVP_DigestUpdate E
                         (EVP_DigestInit_ex E (EVP_MD_CTX_new E) HC).2 data).2
                      (Digest_zero DL))
        by (split; simpl; apply lookup_insert_eq)
  end.
  rewrite run_bind, (Finalize_run _ _ _ _ _ _ Ho2). simpl.
  destruct (_ =? 1)%Z; [|done]. simpl.
  destruct (_ =? DL)%nat eqn:Hlen; [|done].
  apply Nat.eqb_eq in Hlen.
  rewrite run_bind, GetDigest_run. simpl. rewrite lookup_insert_eq. simpl.
  rewrite run_bind.
  erewrite GenericHash_dtor_run by (split; simpl; apply lookup_insert_eq).
  cbv [mret M_ret]. intros [= <- _].
  rewrite length_write_at_data; [done|].
  unfold Digest_zero, DIGEST_LENGTH. rewrite length_replicate. lia.
Qed.
End Execution.

Section Reference.
Context (P : Primitive).
#[local] Abbreviation E := (openssl P).
Implicit Types (w : World E) (this right p : positive) (a : algorithm).

Lemma digest_length_size a : digest_length a = EVP_MD_size (creator a).
Proof. by destruct a. Qed.

Lemma DigestUpdate_active type absorbed data :
  DigestUpdate (active type absorbed) data = (1%Z, active type (absorbed ++ data)).
Proof.
  destruct data; simpl; [|done]. by rewrite app_nil_r.
Qed.

Lemma UpdateData_item_bytes this x :
  UpdateData_item E this x = UpdateData E this (bytes_of x).
Proof. by destruct x. Qed.

Lemma UpdateData_active w this p type absorbed d data :
  owns w this p (active type absorbed) d →
  UpdateData E this data w =
    Returns () {| heap := <[p := active type (absorbed ++ data)]> (heap w);
                  objects := objects w |}.
Proof.
  intros Ho. rewrite (UpdateData_run _ _ _ _ _ _ Ho). simpl.
  by rewrite DigestUpdate_active.
Qed.

Lemma owns_heap_insert w this p c c' d :
  owns w this p c d →
  owns {| heap := <[p := c']> (heap w); objects := objects w |} this p c' d.
Proof. intros [Ho _]. split; simpl; [done|]. apply lookup_insert_eq. Qed.

Lemma UpdateData_pack_active pack : ∀ w this p type absorbed d,
  owns w this p (active type absorbed) d →
  UpdateData_pack E this pack w =
    Returns () {| heap := <[p := active type (absorbed ++ pack_bytes pack)]> (heap w);
                  objects := objects w |}.
Proof.
  induction pack as [|x pack IH]; intros w this p type absorbed d Ho; simpl.
  - unfold pack_bytes; simpl. rewrite app_nil_r.
    cbv [mret M_ret]. destruct Ho as [_ Hc].
    rewrite insert_id by done. by rewrite world_eta.
  - rewrite run_bind, UpdateData_item_bytes, (UpdateData_active _ _ _ _ _ _ _ Ho).
    erewrite IH by (by eapply owns_heap_insert).
    simpl. rewrite insert_insert_eq.
    unfold pack_bytes; simpl. by rewrite app_assoc.
Qed.

Lemma write_at_data_full (out old : list uint8) :
  length old ≤ length out → write_at_data out old = out.
Proof.
  intros Hlen. unfold write_at_data. rewrite drop_ge by done. apply app_nil_r.
Qed.

Lemma Finalize_active a w this p absorbed d :
  length d = digest_length a →
  owns w this p (active (creator a) absorbed) d →
  Finalize E (digest_length a) this w =
    Returns ()
      {| heap := <[p := finalised (creator a) absorbed]> (heap w);
         objects := <[this := {| _ctx := Some p;
                                 _digest := message_digest P (creator a) absorbed |}]>
                      (objects w) |}.
Proof.
  intros Hd Ho. rewrite (Finalize_run _ _ _ _ _ _ Ho). simpl.
  rewrite message_digest_length, <- digest_length_size, Nat.eqb_refl. simpl.
  rewrite write_at_data_full; [done|].
  by rewrite message_digest_length, <- digest_length_size, Hd.
Qed.

Lemma UpdateData_twice {X} this A B (k : M E X) w :
  (UpdateData E this A;; UpdateData E this B;; k) w =
  (UpdateData E this (A ++ B);; k) w.
Proof.
  rewrite !run_bind.
  destruct (owns_dec w this) as [(p & c & d & Ho)|Hno].
  2: { by rewrite !UpdateData_undefined. }
  rewrite !(UpdateData_run _ _ _ _ _ _ Ho). simpl.
  destruct (DigestUpdate c A) as [r1 c1] eqn:H1.
  destruct (DigestUpdate c (A ++ B)) as [r12 c12] eqn:H12. simpl.
  assert (Hstep : if (r1 =? 1)%Z
                  then DigestUpdate c1 B = (r12, c12)
                  else (r12 =? 1)%Z = false).
  { destruct c as [[type|] absorbed [|]], A as [|x A], B as [|y B];
      simpl in *; simplify_eq; simpl; try done.
    all: rewrite ?app_nil_r, <- ?app_assoc; done. }
  destruct (r1 =? 1)%Z; [|by rewrite Hstep].
  rewrite run_bind.
  rewrite (UpdateData_run _ _ _ _ _ _ (owns_heap_insert _ _ _ _ c1 _ Ho)).
  simpl. rewrite Hstep. simpl. by rewrite insert_insert_eq.
Qed.
End Reference.

(** * Streaming and the one-shot helpers *)

Section Streaming.
Context (P : Primitive).
#[local] Abbreviation E := (openssl P).
Implicit Types (w : World E) (this right p : positive) (a : algorithm).

Lemma owns_after_ctor {Eng : Engine} (w : World Eng) this c d :
  owns {| heap := <[fresh (dom (heap w)) := c]> (heap w);
          objects := <[this := {| _ctx := Some (fresh (dom (heap w)));
                                  _digest := d |}]> (objects w) |}
       this (fresh (dom (heap w))) c d.
Proof. split; simpl; apply lookup_insert_eq. Qed.

(** A default-constructed context of a supported algorithm is an active
    context that has absorbed nothing and stores the zero digest. *)
Lemma GenericHash_ctor_active a w this :
  ∃ w' p,
    GenericHash_ctor E (creator a) (digest_length a) this w = Returns () w' ∧
    owns w' this p (active (creator a) []) (Digest_zero (digest_length a)) ∧
    heap w' = <[p := active (creator a) []]> (heap w) ∧
    objects w' = <[this := {| _ctx := Some p;
                              _digest := Digest_zero (digest_length a) |}]> (objects w) ∧
    heap w !! p = None.
Proof.
  exists {| heap := <[fresh (dom (heap w)) := active (creator a) []]> (heap w);
            objects := <[this := {| _ctx := Some (fresh (dom (heap w)));
                                    _digest := Digest_zero (digest_length a) |}]>
                         (objects w) |}, (fresh (dom (heap w))).
  split; [by rewrite GenericHash_ctor_run|].
  split; [apply (owns_after_ctor (Eng := E))|].
  split; [done|]. split; [done|]. apply fresh_ctx_unused.
Qed.

(** C2: on any object, UpdateData(A); UpdateData(B); Finalize() has the
    outcome of UpdateData(A ++ B); Finalize(), and on a newly constructed
    context of a supported algorithm both return the digest of A ++ B. *)
Theorem C2_update_concat a this (A B : list uint8) w :
  (UpdateData E this A;; UpdateData E this B;;
   Finalize E (digest_length a) this;; GetDigest E this) w =
  (UpdateData E this (A ++ B);;
   Finalize E (digest_length a) this;; GetDigest E this) w ∧
  ∃ w',
    (GenericHash_ctor E (creator a) (digest_length a) this;;
     UpdateData E this A;; UpdateData E this B;;
     Finalize E (digest_length a) this;; GetDigest E this) w =
    Returns (message_digest P (creator a) (A ++ B)) w'.
Proof.
  split; [apply UpdateData_twice|].
  destruct (GenericHash_ctor_active a w this) as (w1 & p & Hrun & Ho & _).
  eexists. rewrite run_bind, Hrun, UpdateData_twice, run_bind.
  rewrite (UpdateData_active _ _ _ _ _ _ _ _ Ho). simpl.
  rewrite run_bind.
  erewrite Finalize_active;
    [|apply length_replicate|by eapply owns_heap_insert].
  rewrite GetDigest_run. simpl. by rewrite lookup_insert_eq.
Qed.

Lemma GetDigestOf_pack_run a pack w :
  GetDigestOf_pack E (creator a) (digest_length a) pack w =
    Returns (message_digest P (creator a) (pack_bytes pack)) w.
Proof.
  unfold GetDigestOf_pack. rewrite run_bind, local_run.
  set (hash := fresh (dom (objects w))).
  destruct (GenericHash_ctor_active a w hash) as (w1 & p & Hrun & Ho & Hh & Hobj & Hp).
  rewrite run_bind, Hrun, run_bind.
  rewrite (UpdateData_pack_active _ _ _ _ _ _ _ _ Ho). simpl.
  rewrite run_bind.
  erewrite Finalize_active;
    [|apply length_replicate|by eapply owns_heap_insert].
  simpl. rewrite run_bind, GetDigest_run. simpl. rewrite lookup_insert_eq.
  rewrite run_bind.
  erewrite GenericHash_dtor_run by (split; simpl; apply lookup_insert_eq).
  simpl. cbv [mret M_ret]. f_equal.
  rewrite Hh, Hobj, !insert_insert_eq, !delete_insert_eq.
  rewrite !delete_id by (done || apply fresh_object_unused).
  apply world_eta.
Qed.

Lemma GetDigestOf_run a data w :
  GetDigestOf E (creator a) (digest_length a) data w =
    Returns (message_digest P (creator a) data) w.
Proof.
  unfold GetDigestOf. rewrite run_bind, local_run.
  set (hash := fresh (dom (objects w))).
  destruct (GenericHash_ctor_active a w hash) as (w1 & p & Hrun & Ho & Hh & Hobj & Hp).
  rewrite run_bind, Hrun, run_bind.
  rewrite (UpdateData_active _ _ _ _ _ _ _ _ Ho). simpl.
  rewrite run_bind.
  erewrite Finalize_active;
    [|apply length_replicate|by eapply owns_heap_insert].
  simpl. rewrite run_bind, GetDigest_run. simpl. rewrite lookup_insert_eq.
  rewrite run_bind.
  erewrite GenericHash_dtor_run by (split; simpl; apply lookup_insert_eq).
  simpl. cbv [mret M_ret]. f_equal.
  rewrite Hh, Hobj, !insert_insert_eq, !delete_insert_eq.
  rewrite !delete_id by (done || apply fresh_object_unused).
  apply world_eta.
Qed.

(** C3: the variadic one-shot feeds its items one by one in argument order
    and finalizes once, and its digest is that of the one-shot on the
    concatenation of the bytes of the items. *)
Theorem C3_variadic_concat a (x y z : item) w :
  GetDigestOf_pack E (creator a) (digest_length a) [x; y; z] w =
    (hash ← local E;
     GenericHash_ctor E (creator a) (digest_length a) hash;;
     UpdateData_item E hash x;; UpdateData_item E hash y;;
     UpdateData_item E hash z;;
     Finalize E (digest_length a) hash;;
     d ← GetDigest E hash;
     GenericHash_dtor E hash;;
     mret d) w ∧
  GetDigestOf_pack E (creator a) (digest_length a) [x; y; z] w =
    GetDigestOf E (creator a) (digest_length a)
      (bytes_of x ++ bytes_of y ++ bytes_of z) w ∧
  GetDigestOf_pack E (creator a) (digest_length a) [x; y; z] w =
    GetDigestOf_pack E (creator a) (digest_length a)
      [a_container (bytes_of x ++ bytes_of y ++ bytes_of z)] w ∧
  GetDigestOf_pack E (creator a) (digest_length a) [x; y; z] w =
    Returns (message_digest P (creator a)
               (bytes_of x ++ bytes_of y ++ bytes_of z)) w.
Proof.
  assert (Hbytes : pack_bytes [x; y; z] = bytes_of x ++ bytes_of y ++ bytes_of z).
  { unfold pack_bytes; simpl. by rewrite app_nil_r. }
  split; [|split; [|split]].
  - unfold GetDigestOf_pack. rewrite !run_bind, local_run. simpl.
    do 4 (rewrite !run_bind;
          match goal with
          | |- context [match ?m with Returns _ _ => _
                                    | AssertFailed => _
                                    | Undefined => _ end] =>
              destruct m as [[] ?| |]; [|done..]
          end).
    done.
  - by rewrite GetDigestOf_pack_run, GetDigestOf_run, Hbytes.
  - rewrite !GetDigestOf_pack_run, Hbytes. unfold pack_bytes; simpl.
    by rewrite !app_nil_r.
  - by rewrite GetDigestOf_pack_run, Hbytes.
Qed.

(** C6: the one-shot returns, for every byte sequence, a digest of 16, 20,
    32 and 64 bytes for MD5, SHA-1, SHA-256 and SHA-512. *)
Theorem C6_digest_length a (x : list uint8) w :
  ∃ d,
    GetDigestOf E (creator a) (digest_length a) x w = Returns d w ∧
    GetDigestOf_pack E (creator a) (digest_length a) [a_container x] w =
      Returns d w ∧
    length d = DIGEST_LENGTH (digest_length a) ∧
    length d = match a with MD5 => 16 | SHA1 => 20 | SHA256 => 32 | SHA512 => 64 end.
Proof.
  exists (message_digest P (creator a) x).
  rewrite GetDigestOf_run, GetDigestOf_pack_run. unfold pack_bytes; simpl.
  rewrite app_nil_r, message_digest_length. by destruct a.
Qed.
End Streaming.

Section AnyEngine.
Context {Eng : Engine}.
Implicit Types (w : World Eng) (this right : positive).

(** C9: copy-assigning or move-assigning an object to itself returns at
    once and leaves the whole state, so its engine context and its stored
    digest, as they were. *)
Theorem C9_self_assignment (DL : nat) this w :
  assign_copy Eng this this w = Returns () w ∧
  assign_move Eng DL this this w = Returns () w.
Proof.
  unfold assign_copy, assign_move. by rewrite !decide_True.
Qed.

Lemma strlen_terminated (s rest : list uint8) :
  x00 ∉ s → strlen (s ++ x00 :: rest) = length s.
Proof.
  induction s as [|c s IH]; intros Hs; simpl; [done|].
  destruct (Byte.eqb c x00) eqn:Hc.
  - apply Byte.byte_dec_bl in Hc. subst. set_solver.
  - f_equal. apply IH. set_solver.
Qed.

(** C10: for a C string whose characters before the terminator are [s],
    UpdateData on a [char const*] feeds exactly [s], without the terminator and
    whatever follows it: it is UpdateData of the string_view and of the
    [strlen] bytes at the pointer. *)
Theorem C10_cstring_without_terminator this (s rest : list uint8) w :
  x00 ∉ s →
  strlen (s ++ x00 :: rest) = length s ∧
  string_view_of_cstr (s ++ x00 :: rest) = s ∧
  UpdateData_cstr Eng this (s ++ x00 :: rest) w =
    UpdateData_string_view Eng this s w ∧
  UpdateData_cstr Eng this (s ++ x00 :: rest) w = UpdateData Eng this s w.
Proof.
  intros Hs.
  assert (Hview : string_view_of_cstr (s ++ x00 :: rest) = s).
  { unfold string_view_of_cstr. rewrite strlen_terminated by done.
    by rewrite take_app_length. }
  split; [by apply strlen_terminated|]. split; [done|].
  unfold UpdateData_cstr. rewrite Hview. done.
Qed.
End AnyEngine.

Lemma C10_witness :
  UpdateData_cstr (openssl checksum) 1 [x61; x62; x63; x00; x64]
    (final_world (GenericHash_ctor (openssl checksum) EVP_md5 16 1 empty_world)) =
  UpdateData (openssl checksum) 1 [x61; x62; x63]
    (final_world (GenericHash_ctor (openssl checksum) EVP_md5 16 1 empty_world)).
Proof.
  refine (proj2 (proj2 (proj2
    (C10_cstring_without_terminator 1 [x61; x62; x63] [x64] _ _)))).
  intros Hin. by repeat (apply elem_of_cons in Hin as [Hin|Hin]; [done|]);
    apply elem_of_nil in Hin.
Defined.

Section MoveAnyEngine.
Context {Eng : Engine}.
Implicit Types (w : World Eng) (this right p : positive).

Lemma GenericHash_move_ctor_run DL w this right or :
  this ≠ right →
  objects w !! right = Some or →
  GenericHash_move_ctor Eng DL this right w =
    Returns ()
      {| heap := <[fresh (dom (heap w)) := EVP_MD_CTX_new Eng]> (heap w);
         objects :=
           <[this := {| _ctx := _ctx or; _digest := _digest or |}]>
             (<[right := {| _ctx := Some (fresh (dom (heap w)));
                            _digest := Digest_zero DL |}]> (objects w)) |}.
Proof.
  intros Hne Hr. unfold GenericHash_move_ctor. rewrite run_bind.
  cbv [emplace store].
  erewrite assign_move_run;
    [|done|simpl; apply lookup_insert_eq|simpl; by rewrite lookup_insert_ne].
  simpl. do 2 f_equal.
  by rewrite (insert_insert_ne _ right this), insert_insert_eq by done.
Qed.

Lemma moved_intro DL w this right pr cr dr :
  this ≠ right →
  heap w !! pr = Some cr →
  moved DL w
    {| heap := <[fresh (dom (heap w)) := EVP_MD_CTX_new Eng]> (heap w);
       objects :=
         <[this := {| _ctx := Some pr; _digest := dr |}]>
           (<[right := {| _ctx := Some (fresh (dom (heap w)));
                          _digest := Digest_zero DL |}]> (objects w)) |}
    this right pr cr dr.
Proof.
  intros Hne Hc. exists (fresh (dom (heap w))).
  assert (Hfresh : fresh (dom (heap w)) ≠ pr).
  { intros Heq. rewrite <- Heq, fresh_ctx_unused in Hc. done. }
  split; [apply fresh_ctx_unused|]. split.
  - split; simpl; [apply lookup_insert_eq|]. by rewrite lookup_insert_ne.
  - split; simpl; [|apply lookup_insert_eq].
    rewrite lookup_insert_ne by done. apply lookup_insert_eq.
Qed.

Lemma move_moves DL w this right pr cr dr :
  this ≠ right →
  owns w right pr cr dr →
  (∃ w', GenericHash_move_ctor Eng DL this right w = Returns () w' ∧
         moved DL w w' this right pr cr dr) ∧
  (is_Some (objects w !! this) →
   ∃ w', assign_move Eng DL this right w = Returns () w' ∧
         moved DL w w' this right pr cr dr).
Proof.
  intros Hne [Ho Hc]. split.
  - eexists. split; [by apply GenericHash_move_ctor_run|].
    by apply moved_intro.
  - intros [ol Hl]. eexists. split; [by eapply assign_move_run|].
    by apply moved_intro.
Qed.
End MoveAnyEngine.

Section Move.
Context (P : Primitive).
#[local] Abbreviation E := (openssl P).
Implicit Types (w : World E) (this right p : positive) (a : algorithm).

Lemma uninitialised_unusable DL w this p d :
  owns w this p md_ctx_new d → unusable P DL w this.
Proof.
  intros Ho. split.
  - by rewrite (Finalize_run _ _ _ _ _ _ Ho).
  - intros [|x data] Hdata; [done|].
    by rewrite (UpdateData_run _ _ _ _ _ _ Ho).
Qed.

(** What a move does in the reference library: it hands the engine context
    and the digest of [right] over to [this] and leaves [right] with a newly
    allocated context on which [EVP_DigestInit_ex] was not called and with
    the zero digest; the library reports failure for a final, and for an
    update with any byte, on such a context. *)
Lemma move_leaves_uninitialised_context a w this right pr cr dr :
  this ≠ right →
  owns w right pr cr dr →
  (∃ w', GenericHash_move_ctor E (digest_length a) this right w = Returns () w' ∧
         moved (digest_length a) w w' this right pr cr dr ∧
         unusable P (digest_length a) w' right) ∧
  (is_Some (objects w !! this) →
   ∃ w', assign_move E (digest_length a) this right w = Returns () w' ∧
         moved (digest_length a) w w' this right pr cr dr ∧
         unusable P (digest_length a) w' right).
Proof.
  intros Hne Ho.
  destruct (move_moves (digest_length a) w this right pr cr dr Hne Ho)
    as [(w1 & Hrun1 & Hm1) Hassign].
  split.
  - exists w1. split; [done|]. split; [done|].
    destruct Hm1 as (p' & _ & _ & Hright).
    by eapply uninitialised_unusable.
  - intros Hthis. destruct (Hassign Hthis) as (w2 & Hrun2 & Hm2).
    exists w2. split; [done|]. split; [done|].
    destruct Hm2 as (p' & _ & _ & Hright).
    by eapply uninitialised_unusable.
Qed.
End Move.

Lemma two_contexts_owns_1 :
  owns two_contexts 1 1 (active EVP_md5 [x61; x62; x63]) (replicate 16 x00).
Proof. split; reflexivity. Defined.

Lemma two_contexts_owns_2 :
  owns two_contexts 2 2 (active EVP_md5 []) (replicate 16 x00).
Proof. split; reflexivity. Defined.

Lemma move_leaves_uninitialised_context_two_contexts :
  (∃ w', GenericHash_move_ctor (openssl checksum) (digest_length MD5) 2 1 two_contexts
           = Returns () w' ∧
         moved (digest_length MD5) two_contexts w' 2 1 1
           (active EVP_md5 [x61; x62; x63]) (replicate 16 x00) ∧
         unusable checksum (digest_length MD5) w' 1) ∧
  (∃ w', assign_move (openssl checksum) (digest_length MD5) 2 1 two_contexts
           = Returns () w' ∧
         moved (digest_length MD5) two_contexts w' 2 1 1
           (active EVP_md5 [x61; x62; x63]) (replicate 16 x00) ∧
         unusable checksum (digest_length MD5) w' 1).
Proof.
  destruct (move_leaves_uninitialised_context checksum MD5 two_contexts 2 1 1
              (active EVP_md5 [x61; x62; x63]) (replicate 16 x00))
    as [Hctor Hassign].
  - done.
  - exact two_contexts_owns_1.
  - split; [exact Hctor|]. apply Hassign. eexists. reflexivity.
Defined.

(** C1, at the failing input: an MD5 context is constructed and then moved
    from, by the move constructor or by move assignment.  The moved-from
    object holds what [EVP_MD_CTX_new] returned, on which [EVP_DigestInit_ex]
    was not called, so that Finalize on it, and UpdateData with a byte, do
    not return: the library reports failure and the run is halted.  A newly
    constructed context, which the moved-from object is specified to behave
    as, finalizes to the digest of the empty input. *)
Theorem C1_moved_from_cannot_finalize :
  (GenericHash_ctor (openssl checksum) (creator MD5) (digest_length MD5) 1;;
   GenericHash_move_ctor (openssl checksum) (digest_length MD5) 2 1;;
   Finalize (openssl checksum) (digest_length MD5) 1;;
   GetDigest (openssl checksum) 1) empty_world = AssertFailed ∧
  (GenericHash_ctor (openssl checksum) (creator MD5) (digest_length MD5) 1;;
   GenericHash_ctor (openssl checksum) (creator MD5) (digest_length MD5) 2;;
   assign_move (openssl checksum) (digest_length MD5) 2 1;;
   Finalize (openssl checksum) (digest_length MD5) 1;;
   GetDigest (openssl checksum) 1) empty_world = AssertFailed ∧
  (GenericHash_ctor (openssl checksum) (creator MD5) (digest_length MD5) 1;;
   GenericHash_move_ctor (openssl checksum) (digest_length MD5) 2 1;;
   UpdateData (openssl checksum) 1 [x61]) empty_world = AssertFailed ∧
  (GenericHash_ctor (openssl checksum) (creator MD5) (digest_length MD5) 1;;
   Finalize (openssl checksum) (digest_length MD5) 1;;
   GetDigest (openssl checksum) 1) empty_world =
    Returns (message_digest checksum EVP_md5 [])
      (final_world
         ((GenericHash_ctor (openssl checksum) (creator MD5) (digest_length MD5) 1;;
           Finalize (openssl checksum) (digest_length MD5) 1) empty_world)).
Proof. repeat split; vm_compute; reflexivity. Qed.

Section CopyAnyEngine.
Context {Eng : Engine}.
Implicit Types (w : World Eng) (this right p : positive).

Lemma GenericHash_copy_ctor_run DL w this right pr cr dr :
  this ≠ right →
  owns w right pr cr dr →
  GenericHash_copy_ctor Eng DL this right w =
    let cp := EVP_MD_CTX_copy_ex Eng (EVP_MD_CTX_new Eng) cr in
    if (cp.1 =? 1)%Z
    then Returns ()
           {| heap := <[fresh (dom (heap w)) := cp.2]> (heap w);
              objects := <[this := {| _ctx := Some (fresh (dom (heap w)));
                                      _digest := dr |}]> (objects w) |}
    else AssertFailed.
Proof.
  intros Hne Ho. pose proof (owns_fresh_ne _ _ _ _ _ Ho) as Hfresh.
  destruct Ho as [Ho Hc].
  unfold GenericHash_copy_ctor. rewrite run_bind. cbv [emplace store].
  rewrite run_bind. cbv [MakeCTX]. simpl. rewrite run_bind.
  cbv [set_ctx load store mbind M_bind]. simpl. rewrite lookup_insert_eq. simpl.
  erewrite assign_copy_run; [|done|split; simpl..].
  2: { apply lookup_insert_eq. }
  2: { apply lookup_insert_eq. }
  2: { rewrite !lookup_insert_ne by done. exact Ho. }
  2: { rewrite !lookup_insert_ne by done. exact Hc. }
  simpl. destruct (EVP_MD_CTX_copy_ex Eng (EVP_MD_CTX_new Eng) cr) as [r c'].
  simpl. destruct (r =? 1)%Z; [|done].
  by rewrite !insert_insert_eq.
Qed.
End CopyAnyEngine.

Section Copy.
Context (P : Primitive).
#[local] Abbreviation E := (openssl P).
Implicit Types (w : World E) (this right p : positive) (a : algorithm).

Lemma feed_finalize_run {X} a w this p absorbed d pack (k : list uint8 → M E X) :
  length d = digest_length a →
  owns w this p (active (creator a) absorbed) d →
  (UpdateData_pack E this pack;; Finalize E (digest_length a) this;;
   d' ← GetDigest E this; k d') w =
  k (message_digest P (creator a) (absorbed ++ pack_bytes pack))
    {| heap := <[p := finalised (creator a) (absorbed ++ pack_bytes pack)]> (heap w);
       objects :=
         <[this := {| _ctx := Some p;
                      _digest := message_digest P (creator a)
                                   (absorbed ++ pack_bytes pack) |}]>
           (objects w) |}.
Proof.
  intros Hd Ho. rewrite run_bind.
  rewrite (UpdateData_pack_active _ _ _ _ _ _ _ _ Ho), run_bind.
  erewrite Finalize_active; [|done|by eapply owns_heap_insert].
  simpl. rewrite run_bind, GetDigest_run. simpl.
  by rewrite lookup_insert_eq, insert_insert_eq.
Qed.

Lemma finalize_both_run a w this right pl pr absorbed dl dr post :
  this ≠ right → pl ≠ pr →
  length dl = digest_length a → length dr = digest_length a →
  owns w this pl (active (creator a) absorbed) dl →
  owns w right pr (active (creator a) absorbed) dr →
  ∃ w',
    finalize_both E (digest_length a) this right post w =
      Returns (message_digest P (creator a) (absorbed ++ pack_bytes post),
               message_digest P (creator a) (absorbed ++ pack_bytes post)) w'.
Proof.
  intros Hne Hp Hdl Hdr Hl [Hr Hcr]. unfold finalize_both.
  rewrite (feed_finalize_run _ _ _ _ _ _ _ _ Hdl Hl).
  erewrite feed_finalize_run; [by eexists|done|].
  split; simpl; by rewrite lookup_insert_ne.
Qed.

(** C4: a copy of a context that has absorbed [absorbed], made by the copy
    constructor or by copy assignment, owns a context of its own with the
    same contents and stores the same digest; the source is unchanged; and
    the same further updates applied to both, each then finalized, give
    the same digest, that of [absorbed] followed by the further bytes. *)
Theorem C4_copy_duplicates_state a w this right pr absorbed dr post :
  this ≠ right →
  length dr = digest_length a →
  owns w right pr (active (creator a) absorbed) dr →
  (∃ w' p',
     GenericHash_copy_ctor E (digest_length a) this right w = Returns () w' ∧
     p' ≠ pr ∧
     owns w' this p' (active (creator a) absorbed) dr ∧
     owns w' right pr (active (creator a) absorbed) dr ∧
     ∃ w'',
       finalize_both E (digest_length a) this right post w' =
         Returns (message_digest P (creator a) (absorbed ++ pack_bytes post),
                  message_digest P (creator a) (absorbed ++ pack_bytes post)) w'') ∧
  (∀ pl cl dl,
     pl ≠ pr →
     owns w this pl cl dl →
     ∃ w',
       assign_copy E this right w = Returns () w' ∧
       owns w' this pl (active (creator a) absorbed) dr ∧
       owns w' right pr (active (creator a) absorbed) dr ∧
       ∃ w'',
         finalize_both E (digest_length a) this right post w' =
           Returns (message_digest P (creator a) (absorbed ++ pack_bytes post),
                    message_digest P (creator a) (absorbed ++ pack_bytes post)) w'').
Proof.
  intros Hne Hdr Ho. split.
  - pose proof (owns_fresh_ne _ _ _ _ _ Ho) as Hfresh.
    eexists _, (fresh (dom (heap w))).
    rewrite (GenericHash_copy_ctor_run _ _ _ _ _ _ _ Hne Ho). simpl.
    split; [done|]. split; [done|].
    assert (Hthis : owns
      {| heap := <[fresh (dom (heap w)) := active (creator a) absorbed]> (heap w);
         objects := <[this := {| _ctx := Some (fresh (dom (heap w)));
                                 _digest := dr |}]> (objects w) |}
      this (fresh (dom (heap w))) (active (creator a) absorbed) dr).
    { split; simpl; apply lookup_insert_eq. }
    assert (Hright : owns
      {| heap := <[fresh (dom (heap w)) := active (creator a) absorbed]> (heap w);
         objects := <[this := {| _ctx := Some (fresh (dom (heap w)));
                                 _digest := dr |}]> (objects w) |}
      right pr (active (creator a) absorbed) dr).
    { destruct Ho as [Ho Hc]. split; simpl; by rewrite lookup_insert_ne. }
    split; [done|]. split; [done|].
    eapply (finalize_both_run a _ this right _ pr absorbed dr dr post);
      [done|by apply not_eq_sym|done|done|exact Hthis|exact Hright].
  - intros pl cl dl Hp Hl. eexists.
    rewrite (assign_copy_run _ _ _ _ _ _ _ _ _ Hne Hl Ho). simpl.
    split; [done|].
    assert (Hthis : owns
      {| heap := <[pl := active (creator a) absorbed]> (heap w);
         objects := <[this := {| _ctx := Some pl; _digest := dr |}]> (objects w) |}
      this pl (active (creator a) absorbed) dr).
    { split; simpl; apply lookup_insert_eq. }
    assert (Hright : owns
      {| heap := <[pl := active (creator a) absorbed]> (heap w);
         objects := <[this := {| _ctx := Some pl; _digest := dr |}]> (objects w) |}
      right pr (active (creator a) absorbed) dr).
    { destruct Ho as [Ho Hc]. split; simpl; by rewrite lookup_insert_ne. }
    split; [done|]. split; [done|].
    eapply (finalize_both_run a _ this right pl pr absorbed dr dr post);
      [done|done|done|done|exact Hthis|exact Hright].
Qed.
End Copy.

Lemma C4_witness :
  (∃ w' p',
     GenericHash_copy_ctor (openssl checksum) (digest_length MD5) 3 1 two_contexts
       = Returns () w' ∧
     p' ≠ 1%positive ∧
     owns w' 3 p' (active EVP_md5 [x61; x62; x63]) (replicate 16 x00) ∧
     owns w' 1 1 (active EVP_md5 [x61; x62; x63]) (replicate 16 x00) ∧
     ∃ w'',
       finalize_both (openssl checksum) (digest_length MD5) 3 1
         [a_cstr [x64; x00; x65]; a_string [x66]] w' =
         Returns (checksum_digest EVP_md5 [x61; x62; x63; x64; x66],
                  checksum_digest EVP_md5 [x61; x62; x63; x64; x66]) w'') ∧
  (∃ w',
     assign_copy (openssl checksum) 2 1 two_contexts = Returns () w' ∧
     owns w' 2 2 (active EVP_md5 [x61; x62; x63]) (replicate 16 x00) ∧
     owns w' 1 1 (active EVP_md5 [x61; x62; x63]) (replicate 16 x00) ∧
     ∃ w'',
       finalize_both (openssl checksum) (digest_length MD5) 2 1
         [a_cstr [x64; x00; x65]; a_string [x66]] w' =
         Returns (checksum_digest EVP_md5 [x61; x62; x63; x64; x66],
                  checksum_digest EVP_md5 [x61; x62; x63; x64; x66]) w'').
Proof.
  split.
  - refine (proj1 (C4_copy_duplicates_state checksum MD5 two_contexts 3 1 1
                     [x61; x62; x63] (replicate 16 x00)
                     [a_cstr [x64; x00; x65]; a_string [x66]] _ _ _)).
    + done.
    + reflexivity.
    + exact two_contexts_owns_1.
  - refine (proj2 (C4_copy_duplicates_state checksum MD5 two_contexts 2 1 1
                     [x61; x62; x63] (replicate 16 x00)
                     [a_cstr [x64; x00; x65]; a_string [x66]] _ _ _)
              2%positive (active EVP_md5 []) (replicate 16 x00) _ _).
    + done.
    + reflexivity.
    + exact two_contexts_owns_1.
    + done.
    + exact two_contexts_owns_2.
Defined.

Section Failures.
Context {Eng : Engine}.
Implicit Types (w : World Eng) (this p : positive).

(** The results that the header checks: whatever the primitive library is
    and whatever the state, the constructor is halted by [ASSERT] when
    [EVP_DigestInit_ex] reports a result other than 1 on the new context,
    and returns otherwise. *)
Lemma GenericHash_ctor_checked (HC : EVP_MD) (DL : nat) w this :
  ((EVP_DigestInit_ex Eng (EVP_MD_CTX_new Eng) HC).1 ≠ 1%Z →
     GenericHash_ctor Eng HC DL this w = AssertFailed) ∧
  ((EVP_DigestInit_ex Eng (EVP_MD_CTX_new Eng) HC).1 = 1%Z →
     ∃ w', GenericHash_ctor Eng HC DL this w = Returns () w').
Proof.
  rewrite GenericHash_ctor_run. simpl. split; intros Hr.
  - by apply Z.eqb_neq in Hr as ->.
  - apply Z.eqb_eq in Hr as ->. by eexists.
Qed.

(** On an object that owns a context, UpdateData and Finalize are halted by
    [ASSERT] when the call they make reports a result other than 1, or the
    length stored by [EVP_DigestFinal_ex] is not DIGEST_LENGTH, and return
    otherwise. *)
Lemma UpdateData_Finalize_checked (DL : nat) w this p c d data :
  owns w this p c d →
  ((EVP_DigestUpdate Eng c data).1 ≠ 1%Z →
     UpdateData Eng this data w = AssertFailed) ∧
  ((EVP_DigestUpdate Eng c data).1 = 1%Z →
     ∃ w', UpdateData Eng this data w = Returns () w') ∧
  ((EVP_DigestFinal_ex Eng c).1.1 ≠ 1%Z ∨
   length (EVP_DigestFinal_ex Eng c).2 ≠ DIGEST_LENGTH DL →
     Finalize Eng DL this w = AssertFailed) ∧
  ((EVP_DigestFinal_ex Eng c).1.1 = 1%Z ∧
   length (EVP_DigestFinal_ex Eng c).2 = DIGEST_LENGTH DL →
     ∃ w', Finalize Eng DL this w = Returns () w').
Proof.
  intros Ho. repeat split.
  - intros Hr. rewrite (UpdateData_run _ _ _ _ _ _ Ho). simpl.
    by apply Z.eqb_neq in Hr as ->.
  - intros Hr. rewrite (UpdateData_run _ _ _ _ _ _ Ho). simpl.
    apply Z.eqb_eq in Hr as ->. by eexists.
  - intros Hr. rewrite (Finalize_run _ _ _ _ _ _ Ho). simpl.
    destruct Hr as [Hr|Hr].
    + by apply Z.eqb_neq in Hr as ->.
    + apply Nat.eqb_neq in Hr. unfold DIGEST_LENGTH in Hr. rewrite Hr.
      by rewrite andb_false_r.
  - intros [Hr Hlen]. rewrite (Finalize_run _ _ _ _ _ _ Ho). simpl.
    apply Z.eqb_eq in Hr as ->. apply Nat.eqb_eq in Hlen.
    unfold DIGEST_LENGTH in Hlen. rewrite Hlen. by eexists.
Qed.

(** C5, at the failing input: the constructor runs when [EVP_MD_CTX_new]
    cannot allocate and returns the null pointer.  [GenericHash()] stores
    that pointer in [_ctx] and calls [EVP_DigestInit_ex] on it; no [ASSERT]
    stands between the allocation and that call, so the run is not halted
    by an assertion: it is a call of the library on a null context,
    whatever the library and the state are.  (With the allocation that
    succeeds the constructor is [GenericHash_ctor].) *)
Theorem C5_failed_allocation_is_not_asserted (HC : EVP_MD) (DL : nat) w this :
  GenericHash_ctor_with Eng HC DL (MakeCTX Eng) this w =
    GenericHash_ctor Eng HC DL this w ∧
  (emplace Eng DL this;;
   p ← MakeCTX_null Eng;
   set_ctx Eng this p) w =
    Returns ()
      {| heap := heap w;
         objects := <[this := {| _ctx := None; _digest := Digest_zero DL |}]>
                      (objects w) |} ∧
  GenericHash_ctor_with Eng HC DL (MakeCTX_null Eng) this w = Undefined.
Proof.
  split; [done|]. split.
  - unfold_methods. cbv [MakeCTX_null]. simpl.
    rewrite !lookup_insert_eq. simpl. by rewrite insert_insert_eq.
  - unfold GenericHash_ctor_with. unfold_methods. cbv [MakeCTX_null]. simpl.
    by rewrite !lookup_insert_eq.
Qed.
End Failures.

(** With the library in which every call reports failure, the first
    construction of a program is halted, and so are UpdateData and Finalize
    on an object that owns a context; with the reference library a context
    instantiated with a digest length that is not the one of its algorithm is
    halted in Finalize. *)
Lemma checked_failures_halt :
  (GenericHash_ctor failing EVP_md5 16 1 empty_world = AssertFailed ∧
   UpdateData failing 1 [x61] failing_world = AssertFailed ∧
   Finalize failing 16 1 failing_world = AssertFailed) ∧
  Finalize (openssl checksum) 20 1 two_contexts = AssertFailed ∧
  (∃ w', UpdateData (openssl checksum) 1 [x61] two_contexts = Returns () w').
Proof.
  assert (Hfail : owns failing_world 1 1 () (replicate 16 x00))
    by (split; reflexivity).
  pose proof (UpdateData_Finalize_checked (Eng := failing) 16 failing_world
                1 1 () (replicate 16 x00) [x61] Hfail)
    as (Hupd & _ & Hfin & _).
  pose proof (UpdateData_Finalize_checked (Eng := openssl checksum) 20 two_contexts
                1 1 _ _ [x61] two_contexts_owns_1)
    as (_ & Hupd' & Hfin' & _).
  split; [split; [|split]|split].
  - by apply (GenericHash_ctor_checked (Eng := failing)).
  - apply Hupd. done.
  - apply Hfin. left. done.
  - apply Hfin'. right. by vm_compute.
  - apply Hupd'. reflexivity.
Defined.

Section OverloadConstraint.
Import Overload.

Lemma enabled_deduced (x : argument) :
  negb (is_integral (deduce x)) =
  negb (integer_valued x) || match arg_category x with lvalue => true | rvalue => false end.
Proof. by destruct x as [[] []]. Qed.

(** What the condition tests: the variadic overload takes part in overload
    resolution exactly when no deduced type [Ts] is integral, that is when
    no argument is an rvalue of integer type; an lvalue of integer type,
    whose [Ts] is a reference, does not switch the overload off. *)
Lemma constraint_is_on_deduced_types (pack : list argument) :
  (participates pack = true ↔
     Forall (λ T, is_integral T = false) (deduce <$> pack)) ∧
  (participates pack = true ↔
     Forall (λ x, integer_valued x = true → arg_category x = lvalue) pack) ∧
  (Exists (λ x, integer_valued x = true ∧ arg_category x = rvalue) pack →
     participates pack = false).
Proof.
  assert (Hdeduced : participates pack = true ↔
               Forall (λ T, is_integral T = false) (deduce <$> pack)).
  { unfold participates, enabled. rewrite forallb_forall, Forall_forall.
    split; intros H T HT.
    - apply list_elem_of_In, H in HT. by destruct (is_integral T).
    - apply list_elem_of_In, H in HT. by rewrite HT. }
  assert (Hrvalues : participates pack = true ↔
               Forall (λ x, integer_valued x = true → arg_category x = lvalue) pack).
  { rewrite Hdeduced, Forall_fmap. apply Forall_iff. intros [[] []]; cbv; split;
      (done || (intros Hx; by specialize (Hx eq_refl))). }
  split; [done|]. split; [done|].
  intros Hex. apply not_true_is_false. rewrite Hrvalues.
  intros Hall. apply Exists_exists in Hex as (x & Hx & Hint & Hcat).
  rewrite Forall_forall in Hall. specialize (Hall x Hx Hint). congruence.
Qed.

(** C8, at the failing input: the call [GetDigestOf(id)] with [id] a
    variable of type [unsigned int].  The argument is a value of integer
    type, yet [Ts] is deduced as [unsigned int&], which [std::is_integral]
    answers false for, so the condition of the [enable_if] holds and the
    variadic overload takes part in overload resolution; the same value
    passed as an rvalue switches it off.  Taking part does therefore not
    imply that no argument is of integer type. *)
Theorem C8_integer_lvalue_participates :
  integer_valued {| arg_type := integer ty_unsigned_int;
                    arg_category := lvalue |} = true ∧
  deduce {| arg_type := integer ty_unsigned_int; arg_category := lvalue |} =
    lvalue_reference (integer ty_unsigned_int) ∧
  is_integral (lvalue_reference (integer ty_unsigned_int)) = false ∧
  participates [{| arg_type := integer ty_unsigned_int;
                   arg_category := lvalue |}] = true ∧
  participates [{| arg_type := integer ty_unsigned_int;
                   arg_category := rvalue |}] = false ∧
  ¬ (∀ pack : list argument,
       participates pack = true →
       Forall (λ x, integer_valued x = false) pack).
Proof.
  split_and!; [reflexivity..|].
  intros Hclaim.
  specialize (Hclaim [{| arg_type := integer ty_unsigned_int;
                         arg_category := lvalue |}] eq_refl).
  apply Forall_inv in Hclaim. discriminate Hclaim.
Qed.

Lemma integer_rvalue_switches_off :
  participates [{| arg_type := pointer_to (integer ty_unsigned_char);
                   arg_category := lvalue |};
                {| arg_type := integer ty_int; arg_category := rvalue |}] = false.
Proof.
  apply (proj2 (proj2 (constraint_is_on_deduced_types _))).
  apply Exists_cons_tl, Exists_cons_hd. split; reflexivity.
Defined.
End OverloadConstraint.

Section Returned.
Context {Eng : Engine}.
Implicit Types (w : World Eng) (this right p : positive).

Lemma UpdateData_returned w w' this data :
  UpdateData Eng this data w = Returns () w' →
  ∃ p c d, owns w this p c d ∧
    (EVP_DigestUpdate Eng c data).1 = 1%Z ∧
    w' = {| heap := <[p := (EVP_DigestUpdate Eng c data).2]> (heap w);
            objects := objects w |}.
Proof.
  intros Hrun. destruct (owns_dec w this) as [(p & c & d & Ho)|Hno].
  - rewrite (UpdateData_run _ _ _ _ _ _ Ho) in Hrun. simpl in Hrun.
    destruct (_ =? 1)%Z eqn:Hr in Hrun; [|done].
    exists p, c, d. apply Z.eqb_eq in Hr. simplify_eq. by split_and!.
  - by rewrite UpdateData_undefined in Hrun.
Qed.

Lemma Finalize_undefined DL w this :
  (∀ p c d, ¬ owns w this p c d) → Finalize Eng DL this w = Undefined.
Proof.
  intros Hno. unfold_methods.
  destruct (objects w !! this) as [[[p|] d]|] eqn:Ho; simpl; try done.
  destruct (heap w !! p) as [c|] eqn:Hc; [|done].
  by destruct (Hno p c d).
Qed.

Lemma Finalize_returned DL w w' this :
  Finalize Eng DL this w = Returns () w' →
  ∃ p c d, owns w this p c d ∧
    (EVP_DigestFinal_ex Eng c).1.1 = 1%Z ∧
    length (EVP_DigestFinal_ex Eng c).2 = DL ∧
    w' = {| heap := <[p := (EVP_DigestFinal_ex Eng c).1.2]> (heap w);
            objects := <[this := {| _ctx := Some p;
                                    _digest := write_at_data
                                      (EVP_DigestFinal_ex Eng c).2 d |}]>
                         (objects w) |}.
Proof.
  intros Hrun. destruct (owns_dec w this) as [(p & c & d & Ho)|Hno].
  - rewrite (Finalize_run _ _ _ _ _ _ Ho) in Hrun. simpl in Hrun.
    destruct (_ =? 1)%Z eqn:Hr in Hrun; [|done].
    destruct (_ =? DL)%nat eqn:Hlen in Hrun; [|done].
    exists p, c, d. apply Z.eqb_eq in Hr. apply Nat.eqb_eq in Hlen.
    simpl in Hrun. simplify_eq. by split_and!.
  - by rewrite Finalize_undefined in Hrun.
Qed.

Lemma assign_copy_returned w w' this right :
  assign_copy Eng this right w = Returns () w' →
  (this = right ∧ w' = w) ∨
  (this ≠ right ∧ ∃ pl cl dl pr cr dr,
     owns w this pl cl dl ∧ owns w right pr cr dr ∧
     (EVP_MD_CTX_copy_ex Eng cl cr).1 = 1%Z ∧
     w' = {| heap := <[pl := (EVP_MD_CTX_copy_ex Eng cl cr).2]> (heap w);
             objects := <[this := {| _ctx := Some pl; _digest := dr |}]>
                          (objects w) |}).
Proof.
  intros Hrun. destruct (decide (this = right)) as [->|Hne].
  - left. unfold assign_copy in Hrun. rewrite decide_True in Hrun by done.
    cbv [mret M_ret] in Hrun. by simplify_eq.
  - right. split; [done|].
    assert (∃ pl cl dl pr cr dr,
              owns w this pl cl dl ∧ owns w right pr cr dr) as
      (pl & cl & dl & pr & cr & dr & Hl & Hr).
    { revert Hrun. unfold assign_copy. rewrite decide_False by done.
      unfold_methods.
      destruct (objects w !! this) as [[[pl|] dl]|] eqn:Hol; simpl; try done;
        destruct (objects w !! right) as [[[pr|] dr]|] eqn:Hor; simpl; try done;
        destruct (heap w !! pr) as [cr|] eqn:Hcr; simpl; try done;
        destruct (heap w !! pl) as [cl|] eqn:Hcl; simpl; try done.
      intros _. by exists pl, cl, dl, pr, cr, dr. }
    rewrite (assign_copy_run _ _ _ _ _ _ _ _ _ Hne Hl Hr) in Hrun.
    simpl in Hrun. destruct (_ =? 1)%Z eqn:Hres in Hrun; [|done].
    exists pl, cl, dl, pr, cr, dr. apply Z.eqb_eq in Hres. simplify_eq.
    by split_and!.
Qed.

Lemma assign_move_returned DL w w' this right :
  assign_move Eng DL this right w = Returns () w' →
  (this = right ∧ w' = w) ∨
  (this ≠ right ∧ ∃ ol or,
     objects w !! this = Some ol ∧ objects w !! right = Some or ∧
     w' = {| heap := <[fresh (dom (heap w)) := EVP_MD_CTX_new Eng]> (heap w);
             objects :=
               <[this := {| _ctx := _ctx or; _digest := _digest or |}]>
                 (<[right := {| _ctx := Some (fresh (dom (heap w)));
                                _digest := Digest_zero DL |}]> (objects w)) |}).
Proof.
  intros Hrun. destruct (decide (this = right)) as [->|Hne].
  - left. unfold assign_move in Hrun. rewrite decide_True in Hrun by done.
    cbv [mret M_ret] in Hrun. by simplify_eq.
  - right. split; [done|].
    destruct (objects w !! right) as [or|] eqn:Hor.
    + destruct (objects w !! this) as [ol|] eqn:Hol.
      * rewrite (assign_move_run _ _ _ _ _ _ Hne Hol Hor) in Hrun.
        exists ol, or. by simplify_eq.
      * exfalso. revert Hrun. unfold assign_move.
        rewrite decide_False by done. unfold_methods. simpl.
        repeat first [ rewrite lookup_insert_eq
                     | rewrite lookup_insert_ne by done
                     | rewrite Hor | rewrite Hol | progress simpl ].
        done.
    + exfalso. revert Hrun. unfold assign_move.
      rewrite decide_False by done. unfold_methods. simpl.
      by rewrite Hor.
Qed.

Lemma GenericHash_move_ctor_returned DL w w' this right :
  GenericHash_move_ctor Eng DL this right w = Returns () w' →
  (this = right ∧
   w' = {| heap := heap w;
           objects := <[this := {| _ctx := None; _digest := Digest_zero DL |}]>
                        (objects w) |}) ∨
  (this ≠ right ∧ ∃ or,
     objects w !! right = Some or ∧
     w' = {| heap := <[fresh (dom (heap w)) := EVP_MD_CTX_new Eng]> (heap w);
             objects :=
               <[this := {| _ctx := _ctx or; _digest := _digest or |}]>
                 (<[right := {| _ctx := Some (fresh (dom (heap w)));
                                _digest := Digest_zero DL |}]> (objects w)) |}).
Proof.
  intros Hrun. destruct (decide (this = right)) as [->|Hne].
  - left. split; [done|]. revert Hrun.
    unfold GenericHash_move_ctor, assign_move. rewrite decide_True by done.
    unfold_methods. intros Hrun. by simplify_eq.
  - right. split; [done|].
    destruct (objects w !! right) as [or|] eqn:Hor.
    + rewrite (GenericHash_move_ctor_run _ _ _ _ _ Hne Hor) in Hrun.
      exists or. by simplify_eq.
    + exfalso. revert Hrun. unfold GenericHash_move_ctor, assign_move.
      rewrite decide_False by done. unfold_methods. simpl.
      rewrite lookup_insert_ne by done. by rewrite Hor.
Qed.

Lemma GenericHash_copy_ctor_returned DL w w' this right :
  (∀ o p, objects w !! right = Some o → _ctx o = Some p →
          is_Some (heap w !! p)) →
  GenericHash_copy_ctor Eng DL this right w = Returns () w' →
  (this = right ∧
   w' = {| heap := <[fresh (dom (heap w)) := EVP_MD_CTX_new Eng]> (heap w);
           objects := <[this := {| _ctx := Some (fresh (dom (heap w)));
                                   _digest := Digest_zero DL |}]> (objects w) |}) ∨
  (this ≠ right ∧ ∃ pr cr dr,
     owns w right pr cr dr ∧
     (EVP_MD_CTX_copy_ex Eng (EVP_MD_CTX_new Eng) cr).1 = 1%Z ∧
     w' = {| heap := <[fresh (dom (heap w)) :=
                        (EVP_MD_CTX_copy_ex Eng (EVP_MD_CTX_new Eng) cr).2]> (heap w);
             objects := <[this := {| _ctx := Some (fresh (dom (heap w)));
                                     _digest := dr |}]> (objects w) |}).
Proof.
  intros Hlive Hrun. destruct (decide (this = right)) as [->|Hne].
  - left. split; [done|]. revert Hrun.
    unfold GenericHash_copy_ctor, assign_copy. rewrite decide_True by done.
    unfold_methods. simpl. rewrite lookup_insert_eq. simpl.
    rewrite insert_insert_eq. intros Hrun. by simplify_eq.
  - right. split; [done|].
    destruct (objects w !! right) as [[[pr|] dr]|] eqn:Hor.
    + destruct (Hlive _ pr eq_refl eq_refl) as [cr Hcr].
      assert (Hr : owns w right pr cr dr) by done.
      rewrite (GenericHash_copy_ctor_run _ _ _ _ _ _ _ Hne Hr) in Hrun.
      simpl in Hrun. destruct (_ =? 1)%Z eqn:Hres in Hrun; [|done].
      exists pr, cr, dr. apply Z.eqb_eq in Hres. simplify_eq. by split_and!.
    + exfalso. revert Hrun. unfold GenericHash_copy_ctor, assign_copy.
      rewrite decide_False by done. unfold_methods. simpl.
      repeat first [ rewrite lookup_insert_eq
                   | rewrite lookup_insert_ne by done
                   | rewrite Hor | progress simpl ].
      done.
    + exfalso. revert Hrun. unfold GenericHash_copy_ctor, assign_copy.
      rewrite decide_False by done. unfold_methods. simpl.
      repeat first [ rewrite lookup_insert_eq
                   | rewrite lookup_insert_ne by done
                   | rewrite Hor | progress simpl ].
      done.
Qed.

Lemma GenericHash_dtor_returned w w' this :
  GenericHash_dtor Eng this w = Returns () w' →
  ∃ o, objects w !! this = Some o ∧
    w' = {| heap := match _ctx o with
                    | Some p => delete p (heap w)
                    | None => heap w
                    end;
            objects := delete this (objects w) |}.
Proof.
  unfold_methods.
  destruct (objects w !! this) as [[[p|] d]|] eqn:Ho; simpl; [| |done].
  - rewrite Ho. simpl. rewrite delete_insert_eq.
    intros Hrun. eexists. split; [done|]. by simplify_eq.
  - intros Hrun. eexists. split; [done|]. by simplify_eq.
Qed.
End Returned.

Section Digest.
Context (P : Primitive).
#[local] Abbreviation E := (openssl P).
Implicit Types (w : World E) (this right p : positive) (a : algorithm).

(** C7: GetDigest returns the stored digest and changes nothing.  On a
    context that was constructed and fed, the stored digest is all zero
    until Finalize, and after Finalize it is the digest of the bytes fed. *)
Theorem C7_GetDigest a this (pack : list item) w :
  GetDigest E this w =
    match objects w !! this with
    | Some o => Returns (_digest o) w
    | None => Undefined
    end ∧
  (∃ w', (GenericHash_ctor E (creator a) (digest_length a) this;;
          UpdateData_pack E this pack;;
          GetDigest E this) w =
         Returns (replicate (digest_length a) x00) w') ∧
  (∃ w', (GenericHash_ctor E (creator a) (digest_length a) this;;
          UpdateData_pack E this pack;;
          Finalize E (digest_length a) this;;
          GetDigest E this) w =
         Returns (message_digest P (creator a) (pack_bytes pack)) w').
Proof.
  destruct (GenericHash_ctor_active P a w this)
    as (w1 & p & Hrun & Ho & _ & _ & _).
  split; [apply GetDigest_run|]. split.
  - eexists. rewrite run_bind, Hrun, run_bind.
    rewrite (UpdateData_pack_active _ _ _ _ _ _ _ _ Ho).
    rewrite GetDigest_run. simpl. destruct Ho as [-> _]. done.
  - eexists. rewrite run_bind, Hrun, run_bind.
    rewrite (UpdateData_pack_active _ _ _ _ _ _ _ _ Ho), run_bind.
    erewrite Finalize_active;
      [|apply length_replicate|by eapply owns_heap_insert].
    rewrite GetDigest_run. simpl. by rewrite lookup_insert_eq.
Qed.
End Digest.

(** * Ownership of the engine contexts *)

Section Ownership.
Context {Eng : Engine} (DL : nat).
Implicit Types (w : World Eng) (this right p : positive).

Lemma well_owned_empty : well_owned DL (empty_world (E := Eng)).
Proof. split_and!; intros *; simpl; by rewrite lookup_empty. Qed.

Lemma well_owned_owns_ne w x y px cx dx py cy dy :
  well_owned DL w → x ≠ y → owns w x px cx dx → owns w y py cy dy → px ≠ py.
Proof.
  intros (_ & _ & Hexcl) Hne [Hx _] [Hy _] ->.
  by apply Hne, (Hexcl x y _ _ py Hx Hy).
Qed.

Lemma well_owned_fresh w this o :
  well_owned DL w → objects w !! this = Some o →
  _ctx o ≠ Some (fresh (dom (heap w))).
Proof.
  intros (_ & Hlive & _) Ho Hp. destruct (Hlive this o _ Ho Hp) as [c Hc].
  by rewrite fresh_ctx_unused in Hc.
Qed.

(** The context of an object and its digest are replaced. *)
Lemma well_owned_update w this p c d c' d' :
  well_owned DL w → owns w this p c d → length d' = DL →
  well_owned DL
    {| heap := <[p := c']> (heap w);
       objects := <[this := {| _ctx := Some p; _digest := d' |}]> (objects w) |}.
Proof.
  intros (Hlen & Hlive & Hexcl) [Ho Hc] Hd'.
  assert (Hold : ∀ x ox,
    <[this := {| _ctx := Some p; _digest := d' |}]> (objects w) !! x = Some ox →
    ∃ ox', objects w !! x = Some ox' ∧ _ctx ox' = _ctx ox ∧
           length (_digest ox) = DL).
  { intros x ox Hx. destruct (decide (x = this)) as [->|Hne].
    - rewrite lookup_insert_eq in Hx. simplify_eq. by eexists.
    - rewrite lookup_insert_ne in Hx by done. exists ox. eauto. }
  split_and!; simpl.
  - intros x ox Hx. by destruct (Hold x ox Hx) as (? & _ & _ & ?).
  - intros x ox q Hx Hq. destruct (Hold x ox Hx) as (ox' & Hx' & Hcx & _).
    destruct (decide (q = p)) as [->|Hqp]; [by rewrite lookup_insert_eq|].
    rewrite lookup_insert_ne by done. apply (Hlive x ox'); congruence.
  - intros x y ox oy q Hx Hy Hqx Hqy.
    destruct (Hold x ox Hx) as (ox' & Hx' & Hcx & _).
    destruct (Hold y oy Hy) as (oy' & Hy' & Hcy & _).
    apply (Hexcl x y ox' oy' q); congruence.
Qed.

Lemma well_owned_update_ctx w this p c d c' :
  well_owned DL w → owns w this p c d →
  well_owned DL {| heap := <[p := c']> (heap w); objects := objects w |}.
Proof.
  intros Hw Ho.
  rewrite <- (insert_id (objects w) this {| _ctx := Some p; _digest := d |})
    by apply Ho.
  eapply well_owned_update; [done..|].
  destruct Hw as (Hlen & _). destruct Ho as [Ho _]. apply (Hlen _ _ Ho).
Qed.

(** An object is given a context that was not in the heap. *)
Lemma well_owned_new w this p c d :
  well_owned DL w → heap w !! p = None → length d = DL →
  well_owned DL
    {| heap := <[p := c]> (heap w);
       objects := <[this := {| _ctx := Some p; _digest := d |}]> (objects w) |}.
Proof.
  intros (Hlen & Hlive & Hexcl) Hp Hd.
  assert (Hused : ∀ x ox, objects w !! x = Some ox → _ctx ox ≠ Some p).
  { intros x ox Hx Hq. destruct (Hlive x ox p Hx Hq) as [cp Hcp]. congruence. }
  split_and!; simpl.
  - intros x ox Hx. destruct (decide (x = this)) as [->|Hne].
    + rewrite lookup_insert_eq in Hx. by simplify_eq/=.
    + rewrite lookup_insert_ne in Hx by done. by eapply Hlen.
  - intros x ox q Hx Hq.
    destruct (decide (q = p)) as [->|Hqp]; [by rewrite lookup_insert_eq|].
    rewrite lookup_insert_ne by done.
    destruct (decide (x = this)) as [->|Hne].
    + rewrite lookup_insert_eq in Hx. by simplify_eq/=.
    + rewrite lookup_insert_ne in Hx by done. by eapply Hlive.
  - intros x y ox oy q Hx Hy Hqx Hqy.
    destruct (decide (x = this)) as [->|Hnx];
      destruct (decide (y = this)) as [->|Hny]; [done|..].
    + rewrite lookup_insert_eq in Hx. rewrite lookup_insert_ne in Hy by done.
      simplify_eq/=. by destruct (Hused y oy Hy).
    + rewrite lookup_insert_eq in Hy. rewrite lookup_insert_ne in Hx by done.
      simplify_eq/=. by destruct (Hused x ox Hx).
    + rewrite lookup_insert_ne in Hx, Hy by done. by eapply Hexcl.
Qed.

(** An object without a context. *)
Lemma well_owned_emplace w this d :
  well_owned DL w → length d = DL →
  well_owned DL
    {| heap := heap w;
       objects := <[this := {| _ctx := None; _digest := d |}]> (objects w) |}.
Proof.
  intros (Hlen & Hlive & Hexcl) Hd. split_and!; simpl.
  - intros x ox Hx. destruct (decide (x = this)) as [->|Hne].
    + rewrite lookup_insert_eq in Hx. by simplify_eq/=.
    + rewrite lookup_insert_ne in Hx by done. by eapply Hlen.
  - intros x ox q Hx Hq. destruct (decide (x = this)) as [->|Hne].
    + rewrite lookup_insert_eq in Hx. by simplify_eq/=.
    + rewrite lookup_insert_ne in Hx by done. by eapply Hlive.
  - intros x y ox oy q Hx Hy Hqx Hqy.
    destruct (decide (x = this)) as [->|Hnx];
      destruct (decide (y = this)) as [->|Hny]; [done|..].
    + rewrite lookup_insert_eq in Hx. by simplify_eq/=.
    + rewrite lookup_insert_eq in Hy. by simplify_eq/=.
    + rewrite lookup_insert_ne in Hx, Hy by done. by eapply Hexcl.
Qed.

(** The object [this] takes what [right] had, and [right] a new context. *)
Lemma well_owned_move w this right or p' c :
  well_owned DL w → this ≠ right →
  objects w !! right = Some or → heap w !! p' = None →
  well_owned DL
    {| heap := <[p' := c]> (heap w);
       objects :=
         <[this := {| _ctx := _ctx or; _digest := _digest or |}]>
           (<[right := {| _ctx := Some p'; _digest := Digest_zero DL |}]>
              (objects w)) |}.
Proof.
  intros (Hlen & Hlive & Hexcl) Hne Hor Hp.
  assert (Hused : ∀ x ox, objects w !! x = Some ox → _ctx ox ≠ Some p').
  { intros x ox Hx Hq. destruct (Hlive x ox p' Hx Hq) as [cp Hcp]. congruence. }
  assert (Hnew : ∀ x ox,
    <[this := {| _ctx := _ctx or; _digest := _digest or |}]>
      (<[right := {| _ctx := Some p'; _digest := Digest_zero DL |}]>
         (objects w)) !! x = Some ox →
    (x = this ∧ _ctx ox = _ctx or ∧ _digest ox = _digest or) ∨
    (x = right ∧ _ctx ox = Some p' ∧ _digest ox = Digest_zero DL) ∨
    (x ≠ this ∧ x ≠ right ∧ objects w !! x = Some ox)).
  { intros x ox Hx. destruct (decide (x = this)) as [->|Hnx].
    - rewrite lookup_insert_eq in Hx. left. by simplify_eq/=.
    - rewrite lookup_insert_ne in Hx by done.
      destruct (decide (x = right)) as [->|Hnr].
      + rewrite lookup_insert_eq in Hx. right; left. by simplify_eq/=.
      + rewrite lookup_insert_ne in Hx by done. right; right. done. }
  split_and!; simpl.
  - intros x ox Hx.
    destruct (Hnew x ox Hx) as [(-> & _ & ->)|[(-> & _ & ->)|(_ & _ & Hx')]].
    + by eapply Hlen.
    + apply length_replicate.
    + by eapply Hlen.
  - intros x ox q Hx Hq.
    destruct (decide (q = p')) as [->|Hqp]; [by rewrite lookup_insert_eq|].
    rewrite lookup_insert_ne by done.
    destruct (Hnew x ox Hx) as [(-> & Hc & _)|[(-> & Hc & _)|(_ & _ & Hx')]].
    + apply (Hlive right or); congruence.
    + congruence.
    + by eapply Hlive.
  - intros x y ox oy q Hx Hy Hqx Hqy.
    destruct (Hnew x ox Hx) as [(-> & Hcx & _)|[(-> & Hcx & _)|(Hx1 & Hx2 & Hx')]];
      destruct (Hnew y oy Hy) as [(-> & Hcy & _)|[(-> & Hcy & _)|(Hy1 & Hy2 & Hy')]];
      try done.
    + exfalso. apply (Hused right or Hor). congruence.
    + exfalso. apply Hy2, eq_sym. apply (Hexcl right y or oy q); congruence.
    + exfalso. apply (Hused right or Hor). congruence.
    + exfalso. apply (Hused y oy Hy'). congruence.
    + exfalso. apply Hx2, eq_sym. apply (Hexcl right x or ox q); congruence.
    + exfalso. apply (Hused x ox Hx'). congruence.
    + by eapply Hexcl.
Qed.

(** The object [this] and its context are gone. *)
Lemma well_owned_destroy w this o :
  well_owned DL w → objects w !! this = Some o →
  well_owned DL
    {| heap := match _ctx o with
               | Some p => delete p (heap w)
               | None => heap w
               end;
       objects := delete this (objects w) |}.
Proof.
  intros (Hlen & Hlive & Hexcl) Ho. split_and!; simpl.
  - intros x ox Hx. apply lookup_delete_Some in Hx as [_ Hx]. by eapply Hlen.
  - intros x ox q Hx Hq. apply lookup_delete_Some in Hx as [Hne Hx].
    destruct (_ctx o) as [p|] eqn:Hp; [|by eapply Hlive].
    rewrite lookup_delete_ne; [by eapply Hlive|].
    intros ->. by apply Hne, (Hexcl this x o ox q).
  - intros x y ox oy q Hx Hy Hqx Hqy.
    apply lookup_delete_Some in Hx as [_ Hx].
    apply lookup_delete_Some in Hy as [_ Hy]. by eapply Hexcl.
Qed.

Lemma length_Digest_zero : length (Digest_zero DL) = DL.
Proof. apply length_replicate. Qed.

Lemma well_owned_digest w this p c d :
  well_owned DL w → owns w this p c d → length d = DL.
Proof. intros (Hlen & _) [Ho _]. apply (Hlen _ _ Ho). Qed.

Lemma perform_well_owned HC op w w' :
  well_owned DL w →
  perform Eng HC DL op w = Returns () w' →
  well_owned DL w'.
Proof.
  intros Hw Hrun. destruct op as [this|this right|this right|this right
                                 |this right|this x|this|this]; simpl in Hrun.
  - rewrite GenericHash_ctor_run in Hrun. simpl in Hrun.
    destruct (_ =? 1)%Z in Hrun; [|done]. simplify_eq.
    apply well_owned_new;
      [done|apply fresh_ctx_unused|apply length_Digest_zero].
  - apply GenericHash_copy_ctor_returned in Hrun
      as [[-> ->]|(Hne & pr & cr & dr & Hr & _ & ->)];
      [| |by destruct Hw as (_ & Hlive & _); eauto].
    + apply well_owned_new;
        [done|apply fresh_ctx_unused|apply length_Digest_zero].
    + apply well_owned_new; [done|apply fresh_ctx_unused|].
      by eapply well_owned_digest.
  - apply GenericHash_move_ctor_returned in Hrun
      as [[-> ->]|(Hne & or & Hor & ->)].
    + apply well_owned_emplace; [done|apply length_Digest_zero].
    + apply well_owned_move; [done..|apply fresh_ctx_unused].
  - apply assign_copy_returned in Hrun
      as [[-> ->]|(Hne & pl & cl & dl & pr & cr & dr & Hl & Hr & _ & ->)];
      [done|].
    eapply well_owned_update; [done..|]. by eapply well_owned_digest.
  - apply assign_move_returned in Hrun
      as [[-> ->]|(Hne & ol & or & Hol & Hor & ->)]; [done|].
    apply well_owned_move; [done..|apply fresh_ctx_unused].
  - assert (Hrun' : UpdateData Eng this (bytes_of x) w = Returns () w')
      by (by destruct x).
    apply UpdateData_returned in Hrun' as (p & c & d & Ho & Hres & ->).
    by eapply well_owned_update_ctx.
  - apply Finalize_returned in Hrun as (p & c & d & Ho & Hres & Hlen & ->).
    eapply well_owned_update; [done..|].
    rewrite length_write_at_data; [done|].
    rewrite Hlen. by erewrite well_owned_digest.
  - apply GenericHash_dtor_returned in Hrun as (o & Ho & ->).
    by apply well_owned_destroy.
Qed.

Lemma perform_all_well_owned HC calls : ∀ w w',
  well_owned DL w →
  perform_all Eng HC DL calls w = Returns () w' →
  well_owned DL w'.
Proof.
  induction calls as [|op calls IH]; intros w w' Hw Hrun; simpl in Hrun.
  - cbv [mret M_ret] in Hrun. by simplify_eq.
  - rewrite run_bind in Hrun.
    destruct (perform Eng HC DL op w) as [[] w1| |] eqn:Hop; [|done..].
    eapply IH; [|done]. by eapply perform_well_owned.
Qed.
End Ownership.

Section OwnershipProperties.
Context {Eng : Engine} (HC : EVP_MD) (DL : nat).
Implicit Types (w : World Eng) (this right p : positive).

(** X1: in every state that a program of constructions, copies, moves,
    updates, finalizations and destructions reaches from the empty state,
    no object being move-constructed from itself, and whatever the
    primitive library does, every stored digest has DIGEST_LENGTH bytes,
    every [_ctx] that is not null points to a live context, and no two
    objects hold the same context. *)
Theorem X1_exclusive_ownership (calls : list call) w :
  Forall (λ op, self_move_construction op = false) calls →
  perform_all Eng HC DL calls empty_world = Returns () w →
  (∀ this o, objects w !! this = Some o → length (_digest o) = DL) ∧
  (∀ this o p, objects w !! this = Some o → _ctx o = Some p →
     is_Some (heap w !! p)) ∧
  (∀ x y ox oy p, objects w !! x = Some ox → objects w !! y = Some oy →
     _ctx ox = Some p → _ctx oy = Some p → x = y).
Proof.
  intros _ Hrun.
  apply (perform_all_well_owned DL HC calls empty_world w);
    [apply well_owned_empty|done].
Qed.

Lemma owns_other_insert w this y p q c c' d o :
  y ≠ this → q ≠ p →
  owns w y p c d →
  owns {| heap := <[q := c']> (heap w);
          objects := <[this := o]> (objects w) |} y p c d.
Proof.
  intros Hy Hq [Ho Hc]. split; simpl; by rewrite lookup_insert_ne.
Qed.

(** X2: a call leaves every object it does not write to as it was: the
    object owns the same context, with the same contents, and stores the
    same digest.  The source of a copy is among the objects not written. *)
Theorem X2_other_objects_untouched (op : call) w w' y p c d :
  well_owned DL w →
  perform Eng HC DL op w = Returns () w' →
  y ∉ written op →
  owns w y p c d →
  owns w' y p c d.
Proof.
  intros Hw Hrun Hy Ho.
  assert (Hfresh : fresh (dom (heap w)) ≠ p).
  { intros Heq. destruct Ho as [_ Hc]. by rewrite <- Heq, fresh_ctx_unused in Hc. }
  destruct op as [this|this right|this right|this right
                 |this right|this x|this|this]; simpl in Hrun, Hy.
  - rewrite GenericHash_ctor_run in Hrun. simpl in Hrun.
    destruct (_ =? 1)%Z in Hrun; [|done]. simplify_eq.
    apply owns_other_insert; [set_solver|done..].
  - apply GenericHash_copy_ctor_returned in Hrun
      as [[-> ->]|(Hne & pr & cr & dr & Hr & _ & ->)];
      [| |by destruct Hw as (_ & Hlive & _); eauto].
    + apply owns_other_insert; [set_solver|done..].
    + apply owns_other_insert; [set_solver|done..].
  - apply GenericHash_move_ctor_returned in Hrun
      as [[-> ->]|(Hne & or & Hor & ->)].
    + destruct Ho as [Ho Hc]. split; simpl; [|done].
      rewrite lookup_insert_ne; [done|set_solver].
    + destruct Ho as [Ho Hc]. split; simpl.
      * rewrite !lookup_insert_ne; [done|set_solver..].
      * by rewrite lookup_insert_ne.
  - apply assign_copy_returned in Hrun
      as [[-> ->]|(Hne & pl & cl & dl & pr & cr & dr & Hl & Hr & _ & ->)];
      [done|].
    assert (y ≠ this) by set_solver.
    apply owns_other_insert; [done| |done].
    by eapply (well_owned_owns_ne DL w this y).
  - apply assign_move_returned in Hrun
      as [[-> ->]|(Hne & ol & or & Hol & Hor & ->)]; [done|].
    destruct Ho as [Ho Hc]. split; simpl.
    + rewrite !lookup_insert_ne; [done|set_solver..].
    + by rewrite lookup_insert_ne.
  - assert (Hrun' : UpdateData Eng this (bytes_of x) w = Returns () w')
      by (by destruct x).
    apply UpdateData_returned in Hrun' as (q & cq & dq & Hq & _ & ->).
    assert (y ≠ this) by set_solver.
    destruct Ho as [Ho Hc]. split; simpl; [done|].
    rewrite lookup_insert_ne; [done|].
    by eapply (well_owned_owns_ne DL w this y).
  - apply Finalize_returned in Hrun as (q & cq & dq & Hq & _ & _ & ->).
    assert (y ≠ this) by set_solver.
    apply owns_other_insert; [done| |done].
    by eapply (well_owned_owns_ne DL w this y).
  - apply GenericHash_dtor_returned in Hrun as (o & Hobj & ->).
    assert (H : y ≠ this) by set_solver.
    destruct Ho as [Ho Hc]. split; simpl; [by rewrite lookup_delete_ne|].
    destruct (_ctx o) as [q|] eqn:Hq; [|done].
    rewrite lookup_delete_ne; [done|].
    intros ->. destruct Hw as (_ & _ & Hexcl).
    apply H, eq_sym. by eapply (Hexcl this y).
Qed.

(** X3: move assignment does not release the context that the destination
    owned.  After it that context is still in the heap, with its contents,
    and no object holds it; the heap has one context more than before for
    the same number of objects. *)
Theorem X3_assign_move_keeps_old_context w this right pl cl dl :
  well_owned DL w →
  this ≠ right →
  owns w this pl cl dl →
  is_Some (objects w !! right) →
  ∃ w', assign_move Eng DL this right w = Returns () w' ∧
        heap w' !! pl = Some cl ∧
        unowned w' pl ∧
        size (heap w') = S (size (heap w)) ∧
        size (objects w') = size (objects w).
Proof.
  intros Hw Hne [Hl Hcl] [or Hor].
  pose proof Hw as (_ & Hlive & Hexcl).
  assert (Hfresh : fresh (dom (heap w)) ≠ pl).
  { intros Heq. by rewrite <- Heq, fresh_ctx_unused in Hcl. }
  eexists. split; [by eapply assign_move_run|]. simpl. split_and!.
  - by rewrite lookup_insert_ne.
  - intros x ox Hx Hq. simpl in Hx.
    destruct (decide (x = this)) as [->|Hnx].
    + rewrite lookup_insert_eq in Hx. simplify_eq/=.
      apply Hne. by eapply (Hexcl this right).
    + rewrite lookup_insert_ne in Hx by done.
      destruct (decide (x = right)) as [->|Hnr].
      * rewrite lookup_insert_eq in Hx. by simplify_eq/=.
      * rewrite lookup_insert_ne in Hx by done.
        apply Hnx. by eapply (Hexcl x this).
  - apply map_size_insert_None, fresh_ctx_unused.
  - rewrite map_size_insert_Some.
    + by apply map_size_insert_Some.
    + rewrite lookup_insert_ne by done. by eexists.
Qed.
End OwnershipProperties.

Section OneShot.
Context {Eng : Engine} (HC : EVP_MD) (DL : nat).
Implicit Types (w : World Eng) (this right p : positive).

Lemma leave_scope w (hash p : positive) (c : EVP_MD_CTX Eng) (o : GenericHash) :
  hash = fresh (dom (objects w)) →
  p = fresh (dom (heap w)) →
  {| heap := delete p (<[p := c]> (heap w));
     objects := delete hash (<[hash := o]> (objects w)) |} = w.
Proof.
  intros -> ->. rewrite !delete_insert_eq.
  rewrite !delete_id by (apply fresh_ctx_unused || apply fresh_object_unused).
  apply world_eta.
Qed.

Lemma UpdateData_pack_returned pack : ∀ w w' this p c d,
  owns w this p c d →
  UpdateData_pack Eng this pack w = Returns () w' →
  w' = {| heap := <[p := absorb_all Eng c (bytes_of <$> pack)]> (heap w);
          objects := objects w |}.
Proof.
  induction pack as [|x pack IH]; intros w w' this p c d Ho Hrun; simpl in *.
  - cbv [mret M_ret] in Hrun. simplify_eq. destruct Ho as [_ Hc].
    rewrite insert_id by done. by rewrite world_eta.
  - rewrite run_bind in Hrun.
    assert (Hitem : UpdateData_item Eng this x = UpdateData Eng this (bytes_of x))
      by (by destruct x).
    rewrite Hitem, (UpdateData_run _ _ _ _ _ _ Ho) in Hrun. simpl in Hrun.
    destruct (_ =? 1)%Z in Hrun; [|done].
    eapply IH in Hrun; [|split; simpl; [apply Ho|apply lookup_insert_eq]].
    rewrite Hrun. simpl. by rewrite insert_insert_eq.
Qed.

Lemma GetDigestOf_outcome data w :
  GetDigestOf Eng HC DL data w =
    let init := EVP_DigestInit_ex Eng (EVP_MD_CTX_new Eng) HC in
    let upd := EVP_DigestUpdate Eng init.2 data in
    let fin := EVP_DigestFinal_ex Eng upd.2 in
    if (init.1 =? 1)%Z && (upd.1 =? 1)%Z && (fin.1.1 =? 1)%Z
       && (length fin.2 =? DL)%nat
    then Returns (write_at_data fin.2 (Digest_zero DL)) w
    else AssertFailed.
Proof.
  unfold GetDigestOf. rewrite run_bind, local_run.
  set (hash := fresh (dom (objects w))).
  rewrite run_bind, GenericHash_ctor_run. simpl.
  destruct (_ =? 1)%Z; [|done]. simpl.
  match goal with
  | |- context [mbind _ (UpdateData Eng hash data) ?w1] =>
      assert (Ho1 : owns w1 hash (fresh (dom (heap w)))
                      (EVP_DigestInit_ex Eng (EVP_MD_CTX_new Eng) HC).2
                      (Digest_zero DL))
        by (split; simpl; apply lookup_insert_eq)
  end.
  rewrite run_bind, (UpdateData_run _ _ _ _ _ _ Ho1). simpl.
  destruct (_ =? 1)%Z; [|done]. simpl. clear Ho1.
  match goal with
  | |- context [mbind _ (Finalize Eng DL hash) ?w2] =>
      assert (Ho2 : owns w2 hash (fresh (dom (heap w)))
                      (EVP_DigestUpdate Eng
                         (EVP_DigestInit_ex Eng (EVP_MD_CTX_new Eng) HC).2 data).2
                      (Digest_zero DL))
        by (split; simpl; apply lookup_insert_eq)
  end.
  rewrite run_bind, (Finalize_run _ _ _ _ _ _ Ho2). simpl.
  destruct (_ =? 1)%Z; [|done]. simpl.
  destruct (_ =? DL)%nat; [|done].
  rewrite run_bind, GetDigest_run. simpl. rewrite lookup_insert_eq. simpl.
  rewrite run_bind.
  erewrite GenericHash_dtor_run by (split; simpl; apply lookup_insert_eq).
  cbv [mret M_ret]. simpl. f_equal.
  rewrite !insert_insert_eq. by apply leave_scope.
Qed.

(** X4: whatever the primitive library does, the one-shot on a buffer
    returns exactly when initialisation, the one update and finalization all
    report 1 and DIGEST_LENGTH bytes were stored; it then returns the bytes
    that finalization stored, and leaves the state as it found it: the
    context and the object it made are gone. *)
Theorem X4_one_shot_protocol data w w' d :
  GetDigestOf Eng HC DL data w = Returns d w' ↔
  let init := EVP_DigestInit_ex Eng (EVP_MD_CTX_new Eng) HC in
  let upd := EVP_DigestUpdate Eng init.2 data in
  let fin := EVP_DigestFinal_ex Eng upd.2 in
  init.1 = 1%Z ∧ upd.1 = 1%Z ∧ fin.1.1 = 1%Z ∧ length fin.2 = DL ∧
  d = fin.2 ∧ w' = w.
Proof.
  rewrite GetDigestOf_outcome. simpl.
  destruct (_ =? 1)%Z eqn:Hinit; simpl.
  2: { apply Z.eqb_neq in Hinit. split; [done|]. by intros (? & _). }
  apply Z.eqb_eq in Hinit.
  destruct (_ =? 1)%Z eqn:Hupd; simpl.
  2: { apply Z.eqb_neq in Hupd. split; [done|]. by intros (_ & ? & _). }
  apply Z.eqb_eq in Hupd.
  destruct (_ =? 1)%Z eqn:Hfin; simpl.
  2: { apply Z.eqb_neq in Hfin. split; [done|]. by intros (_ & _ & ? & _). }
  apply Z.eqb_eq in Hfin.
  destruct (_ =? DL)%nat eqn:Hlen.
  2: { apply Nat.eqb_neq in Hlen. split; [done|]. by intros (_ & _ & _ & ? & _). }
  apply Nat.eqb_eq in Hlen.
  rewrite write_at_data_full
    by (unfold Digest_zero, DIGEST_LENGTH; rewrite length_replicate; lia).
  split.
  - intros [= <- <-]. by split_and!.
  - intros (_ & _ & _ & _ & -> & ->). done.
Qed.

(** X5: whatever the primitive library does, when the variadic one-shot
    returns, its digest is what finalization stored after the context was
    initialised and updated with the bytes of each item in argument order;
    it has DIGEST_LENGTH bytes, and the state is as it was before the
    call. *)
Theorem X5_variadic_protocol (pack : list item) w w' d :
  GetDigestOf_pack Eng HC DL pack w = Returns d w' →
  let init := EVP_DigestInit_ex Eng (EVP_MD_CTX_new Eng) HC in
  let fin := EVP_DigestFinal_ex Eng (absorb_all Eng init.2 (bytes_of <$> pack)) in
  d = fin.2 ∧ length d = DL ∧ w' = w.
Proof.
  unfold GetDigestOf_pack. rewrite run_bind, local_run.
  set (hash := fresh (dom (objects w))).
  rewrite run_bind, GenericHash_ctor_run. simpl.
  destruct (_ =? 1)%Z; [|done].
  rewrite run_bind.
  match goal with
  | |- context [UpdateData_pack Eng hash pack ?w1] =>
      assert (Ho1 : owns w1 hash (fresh (dom (heap w)))
                      (EVP_DigestInit_ex Eng (EVP_MD_CTX_new Eng) HC).2
                      (Digest_zero DL))
        by (split; simpl; apply lookup_insert_eq);
      destruct (UpdateData_pack Eng hash pack w1) as [[] w2| |] eqn:Hpack;
        [|done..]
  end.
  apply (UpdateData_pack_returned _ _ _ _ _ _ _ Ho1) in Hpack as ->. simpl.
  rewrite insert_insert_eq.
  match goal with
  | |- context [mbind _ (Finalize Eng DL hash) ?w2] =>
      assert (Ho2 : owns w2 hash (fresh (dom (heap w)))
                      (absorb_all Eng
                         (EVP_DigestInit_ex Eng (EVP_MD_CTX_new Eng) HC).2
                         (bytes_of <$> pack))
                      (Digest_zero DL))
        by (split; simpl; apply lookup_insert_eq)
  end.
  rewrite run_bind, (Finalize_run _ _ _ _ _ _ Ho2). simpl.
  destruct (_ =? 1)%Z; [|done]. simpl.
  destruct (_ =? DL)%nat eqn:Hlen; [|done]. apply Nat.eqb_eq in Hlen.
  rewrite run_bind, GetDigest_run. simpl. rewrite lookup_insert_eq. simpl.
  rewrite run_bind.
  erewrite GenericHash_dtor_run by (split; simpl; apply lookup_insert_eq).
  cbv [mret M_ret]. simpl.
  rewrite write_at_data_full
    by (unfold Digest_zero, DIGEST_LENGTH; rewrite length_replicate; lia).
  intros [= <- <-]. split; [done|]. split; [done|].
  rewrite !insert_insert_eq. by apply leave_scope.
Qed.
End OneShot.

Section Lifetimes.
Context {Eng : Engine} (HC : EVP_MD) (DL : nat).
Implicit Types (w : World Eng) (this right p : positive).

(** X7: an object that is constructed at an unused address and then
    destroyed leaves the state exactly as it was, whatever that state is;
    so does an object that is copy-constructed there from an object that
    owns a context, the source of the copy included.  When the call of the
    primitive library reports a result other than 1, the construction is
    halted instead. *)
Theorem X7_temporary_leaves_no_trace w this :
  objects w !! this = None →
  (GenericHash_ctor Eng HC DL this;; GenericHash_dtor Eng this) w =
    (if ((EVP_DigestInit_ex Eng (EVP_MD_CTX_new Eng) HC).1 =? 1)%Z
     then Returns () w else AssertFailed) ∧
  (∀ right pr cr dr,
     owns w right pr cr dr →
     (GenericHash_copy_ctor Eng DL this right;; GenericHash_dtor Eng this) w =
       (if ((EVP_MD_CTX_copy_ex Eng (EVP_MD_CTX_new Eng) cr).1 =? 1)%Z
        then Returns () w else AssertFailed)).
Proof.
  intros Hthis.
  assert (Hback : ∀ (c : EVP_MD_CTX Eng) o,
    {| heap := delete (fresh (dom (heap w))) (<[fresh (dom (heap w)) := c]> (heap w));
       objects := delete this (<[this := o]> (objects w)) |} = w).
  { intros c o. rewrite !delete_insert_eq.
    rewrite !delete_id by (done || apply fresh_ctx_unused). apply world_eta. }
  split.
  - rewrite run_bind, GenericHash_ctor_run. simpl.
    destruct (_ =? 1)%Z; [|done].
    erewrite GenericHash_dtor_run by (split; simpl; apply lookup_insert_eq).
    simpl. by rewrite Hback.
  - intros right pr cr dr Hr.
    assert (Hne : this ≠ right).
    { intros ->. destruct Hr as [Hr _]. congruence. }
    rewrite run_bind, (GenericHash_copy_ctor_run _ _ _ _ _ _ _ Hne Hr). simpl.
    destruct (_ =? 1)%Z; [|done].
    erewrite GenericHash_dtor_run by (split; simpl; apply lookup_insert_eq).
    simpl. by rewrite Hback.
Qed.

(** X9: copy construction and copy assignment from a different object are
    halted by the assertion exactly when [EVP_MD_CTX_copy_ex] reports a
    result other than 1, and return otherwise. *)
Theorem X9_copy_failure_is_fatal w this right pl cl dl pr cr dr :
  this ≠ right →
  owns w right pr cr dr →
  (GenericHash_copy_ctor Eng DL this right w = AssertFailed ↔
     (EVP_MD_CTX_copy_ex Eng (EVP_MD_CTX_new Eng) cr).1 ≠ 1%Z) ∧
  ((∃ w', GenericHash_copy_ctor Eng DL this right w = Returns () w') ↔
     (EVP_MD_CTX_copy_ex Eng (EVP_MD_CTX_new Eng) cr).1 = 1%Z) ∧
  (owns w this pl cl dl →
     (assign_copy Eng this right w = AssertFailed ↔
        (EVP_MD_CTX_copy_ex Eng cl cr).1 ≠ 1%Z) ∧
     ((∃ w', assign_copy Eng this right w = Returns () w') ↔
        (EVP_MD_CTX_copy_ex Eng cl cr).1 = 1%Z)).
Proof.
  intros Hne Hr.
  rewrite (GenericHash_copy_ctor_run _ _ _ _ _ _ _ Hne Hr). simpl.
  split_and!.
  - destruct (_ =? 1)%Z eqn:Hres.
    + apply Z.eqb_eq in Hres. by split.
    + apply Z.eqb_neq in Hres. by split.
  - destruct (_ =? 1)%Z eqn:Hres.
    + apply Z.eqb_eq in Hres. split; [done|]. by eexists.
    + apply Z.eqb_neq in Hres. split; [by intros [? ?]|done].
  - intros Hl. rewrite (assign_copy_run _ _ _ _ _ _ _ _ _ Hne Hl Hr). simpl.
    destruct (_ =? 1)%Z eqn:Hres.
    + apply Z.eqb_eq in Hres. split; [by split|]. split; [done|]. by eexists.
    + apply Z.eqb_neq in Hres. split; [by split|]. split; [by intros [? ?]|done].
Qed.
End Lifetimes.

Section Streams.
Context (P : Primitive).
#[local] Abbreviation E := (openssl P).
Implicit Types (w : World E) (this right p : positive) (a : algorithm).

(** X6: the variadic one-shot, for any number of items, none included,
    returns the digest of the concatenation of their bytes, so two packs
    with the same concatenation have the same digest: where one item ends
    and the next begins does not enter the digest. *)
Theorem X6_variadic_ignores_item_boundaries a (pack pack' : list item) w :
  GetDigestOf_pack E (creator a) (digest_length a) pack w =
    Returns (message_digest P (creator a) (pack_bytes pack)) w ∧
  (pack_bytes pack = pack_bytes pack' →
   GetDigestOf_pack E (creator a) (digest_length a) pack w =
   GetDigestOf_pack E (creator a) (digest_length a) pack' w).
Proof.
  split; [apply GetDigestOf_pack_run|].
  intros Hsame. by rewrite !GetDigestOf_pack_run, Hsame.
Qed.

(** X10: copy construction is default construction followed by copy
    assignment: both leave the same state. *)
Theorem X10_copy_ctor_is_ctor_then_assign a w this right pr cr dr :
  this ≠ right →
  owns w right pr cr dr →
  GenericHash_copy_ctor E (digest_length a) this right w =
  (GenericHash_ctor E (creator a) (digest_length a) this;;
   assign_copy E this right) w.
Proof.
  intros Hne Ho. pose proof (owns_fresh_ne _ _ _ _ _ Ho) as Hfresh.
  rewrite (GenericHash_copy_ctor_run _ _ _ _ _ _ _ Hne Ho).
  rewrite run_bind, GenericHash_ctor_run. simpl.
  erewrite assign_copy_run; [|done|split; simpl; apply lookup_insert_eq|].
  2: { destruct Ho as [Ho Hc]. split; simpl; by rewrite lookup_insert_ne. }
  simpl. by rewrite !insert_insert_eq.
Qed.

(** X11: a move carries the stream along: the destination of a move
    construction or of a move assignment, fed further bytes and finalized,
    returns the digest of what the source had absorbed followed by those
    bytes. *)
Theorem X11_move_continues_the_stream a w this right pr absorbed dr post :
  this ≠ right →
  length dr = digest_length a →
  owns w right pr (active (creator a) absorbed) dr →
  (∃ w', (GenericHash_move_ctor E (digest_length a) this right;;
          UpdateData_pack E this post;;
          Finalize E (digest_length a) this;;
          GetDigest E this) w =
         Returns (message_digest P (creator a) (absorbed ++ pack_bytes post)) w') ∧
  (is_Some (objects w !! this) →
   ∃ w', (assign_move E (digest_length a) this right;;
          UpdateData_pack E this post;;
          Finalize E (digest_length a) this;;
          GetDigest E this) w =
         Returns (message_digest P (creator a) (absorbed ++ pack_bytes post)) w').
Proof.
  intros Hne Hdr Ho.
  destruct (move_moves (digest_length a) w this right pr _ dr Hne Ho)
    as [(w1 & Hrun1 & Hm1) Hassign].
  assert (Hfeed : ∀ w1,
    owns w1 this pr (active (creator a) absorbed) dr →
    ∃ w', (UpdateData_pack E this post;; Finalize E (digest_length a) this;;
           GetDigest E this) w1 =
          Returns (message_digest P (creator a) (absorbed ++ pack_bytes post)) w').
  { intros w0 Ho0. eexists. rewrite run_bind.
    rewrite (UpdateData_pack_active _ _ _ _ _ _ _ _ Ho0), run_bind.
    erewrite Finalize_active; [|done|by eapply owns_heap_insert].
    rewrite GetDigest_run. simpl. by rewrite lookup_insert_eq. }
  split.
  - destruct Hm1 as (p' & _ & Hthis & _).
    destruct (Hfeed w1 Hthis) as [w' Hw']. exists w'.
    by rewrite run_bind, Hrun1.
  - intros Hlive. destruct (Hassign Hlive) as (w2 & Hrun2 & Hm2).
    destruct Hm2 as (p' & _ & Hthis & _).
    destruct (Hfeed w2 Hthis) as [w' Hw']. exists w'.
    by rewrite run_bind, Hrun2.
Qed.
End Streams.

Section Feeding.
Context {Eng : Engine}.

(** X13: UpdateData, through any of its overloads and any number of times,
    changes no data member of any object: the digest that GetDigest returns
    afterwards is the one stored before, whatever the primitive library
    does. *)
Theorem X13_updates_keep_stored_digest (pack : list item) (w w' : World Eng)
    (this p : positive) (c : EVP_MD_CTX Eng) (d : list uint8) :
  owns w this p c d →
  UpdateData_pack Eng this pack w = Returns () w' →
  objects w' = objects w ∧
  GetDigest Eng this w' = Returns d w'.
Proof.
  intros Ho Hrun.
  apply (UpdateData_pack_returned _ _ _ _ _ _ _ Ho) in Hrun as ->.
  split; [done|]. rewrite GetDigest_run. simpl. by destruct Ho as [-> _].
Qed.
End Feeding.

(** * The further properties on concrete states *)

Lemma two_contexts_well_owned : well_owned 16 two_contexts.
Proof.
  apply (perform_all_well_owned 16 EVP_md5
           [call_ctor 1; call_ctor 2; call_UpdateData 1 (a_container [x61; x62; x63])]
           empty_world); [apply well_owned_empty|reflexivity].
Qed.

Lemma X1_witness : well_owned 16 after_copy_and_move.
Proof.
  apply (X1_exclusive_ownership (Eng := openssl checksum) EVP_md5 16
           copy_and_move_after_finalize after_copy_and_move).
  - repeat constructor.
  - reflexivity.
Defined.

(** The source of a copy assignment, and an object next to a finalization,
    are as they were. *)
Lemma X2_witness :
  owns (final_world (assign_copy (openssl checksum) 2 1 two_contexts))
    1 1 (active EVP_md5 [x61; x62; x63]) (replicate 16 x00) ∧
  owns (final_world (Finalize (openssl checksum) 16 1 two_contexts))
    2 2 (active EVP_md5 []) (replicate 16 x00).
Proof.
  split.
  - apply (X2_other_objects_untouched (Eng := openssl checksum) EVP_md5 16
             (call_assign_copy 2 1) two_contexts).
    + exact two_contexts_well_owned.
    + reflexivity.
    + simpl. intros Hin.
      apply elem_of_cons in Hin as [Hin|Hin]; [done|by apply elem_of_nil in Hin].
    + exact two_contexts_owns_1.
  - apply (X2_other_objects_untouched (Eng := openssl checksum) EVP_md5 16
             (call_Finalize 1) two_contexts).
    + exact two_contexts_well_owned.
    + reflexivity.
    + simpl. intros Hin.
      apply elem_of_cons in Hin as [Hin|Hin]; [done|by apply elem_of_nil in Hin].
    + exact two_contexts_owns_2.
Defined.

Lemma X3_witness :
  ∃ w', assign_move (openssl checksum) 16 2 1 two_contexts = Returns () w' ∧
        heap w' !! 2%positive = Some (active EVP_md5 []) ∧
        unowned w' 2 ∧
        size (heap w') = S (size (heap two_contexts)) ∧
        size (objects w') = size (objects two_contexts).
Proof.
  apply (X3_assign_move_keeps_old_context (Eng := openssl checksum) 16
           two_contexts 2 1 2 (active EVP_md5 []) (replicate 16 x00)).
  - exact two_contexts_well_owned.
  - done.
  - exact two_contexts_owns_2.
  - eexists. reflexivity.
Defined.

Lemma X4_witness :
  GetDigestOf (openssl checksum) EVP_md5 16 [x61; x62; x63] two_contexts =
    Returns (checksum_digest EVP_md5 [x61; x62; x63]) two_contexts.
Proof.
  apply (proj2 (X4_one_shot_protocol (Eng := openssl checksum) EVP_md5 16
                  [x61; x62; x63] two_contexts two_contexts
                  (checksum_digest EVP_md5 [x61; x62; x63]))).
  simpl. by split_and!.
Defined.

Lemma X5_witness :
  checksum_digest EVP_md5 [x61; x62; x63] =
    (DigestFinal_ex checksum
       (absorb_all (openssl checksum) (active EVP_md5 [])
          [[x61; x62]; [x63]])).2 ∧
  length (checksum_digest EVP_md5 [x61; x62; x63]) = 16 ∧
  two_contexts = two_contexts.
Proof.
  apply (X5_variadic_protocol (Eng := openssl checksum) EVP_md5 16
           [a_cstr [x61; x62; x00; x64]; a_string [x63]]
           two_contexts two_contexts (checksum_digest EVP_md5 [x61; x62; x63])).
  reflexivity.
Defined.

Lemma X6_witness :
  GetDigestOf_pack (openssl checksum) (creator SHA1) (digest_length SHA1)
    [a_string [x61; x62]; a_string [x63]] two_contexts =
  GetDigestOf_pack (openssl checksum) (creator SHA1) (digest_length SHA1)
    [a_string [x61]; a_container []; a_cstr [x62; x63; x00]] two_contexts.
Proof.
  apply (proj2 (X6_variadic_ignores_item_boundaries checksum SHA1
                  [a_string [x61; x62]; a_string [x63]]
                  [a_string [x61]; a_container []; a_cstr [x62; x63; x00]]
                  two_contexts)).
  reflexivity.
Defined.

(** The first object of a program, and a temporary next to two live
    objects. *)
Lemma X7_witness :
  (GenericHash_ctor (openssl checksum) EVP_md5 16 1;;
   GenericHash_dtor (openssl checksum) 1) empty_world = Returns () empty_world ∧
  (GenericHash_ctor failing EVP_md5 16 1;;
   GenericHash_dtor failing 1) empty_world = AssertFailed ∧
  (GenericHash_ctor (openssl checksum) EVP_md5 16 3;;
   GenericHash_dtor (openssl checksum) 3) two_contexts = Returns () two_contexts ∧
  (GenericHash_copy_ctor (openssl checksum) 16 3 1;;
   GenericHash_dtor (openssl checksum) 3) two_contexts = Returns () two_contexts.
Proof.
  split_and!.
  - exact (proj1 (X7_temporary_leaves_no_trace (Eng := openssl checksum) EVP_md5 16
                    empty_world 1 eq_refl)).
  - exact (proj1 (X7_temporary_leaves_no_trace (Eng := failing) EVP_md5 16
                    empty_world 1 eq_refl)).
  - exact (proj1 (X7_temporary_leaves_no_trace (Eng := openssl checksum) EVP_md5 16
                    two_contexts 3 eq_refl)).
  - exact (proj2 (X7_temporary_leaves_no_trace (Eng := openssl checksum) EVP_md5 16
                    two_contexts 3 eq_refl)
             1%positive 1%positive (active EVP_md5 [x61; x62; x63])
             (replicate 16 x00) two_contexts_owns_1).
Defined.

Lemma X9_witness :
  GenericHash_copy_ctor failing 16 2 1 failing_world = AssertFailed ∧
  (∃ w', assign_copy (openssl checksum) 2 1 two_contexts = Returns () w').
Proof.
  split.
  - apply (proj1 (X9_copy_failure_is_fatal (Eng := failing) 16 failing_world
                    2 1 1 () [] 1 () (replicate 16 x00) ltac:(done)
                    ltac:(split; reflexivity))).
    done.
  - refine (proj2 (proj2 (proj2 (proj2
              (X9_copy_failure_is_fatal (Eng := openssl checksum) 16
                 two_contexts 2 1 2 (active EVP_md5 []) (replicate 16 x00)
                 1 (active EVP_md5 [x61; x62; x63]) (replicate 16 x00)
                 ltac:(done) two_contexts_owns_1)) two_contexts_owns_2)) _).
    reflexivity.
Defined.

Lemma X10_witness :
  GenericHash_copy_ctor (openssl checksum) (digest_length MD5) 3 1 two_contexts =
  (GenericHash_ctor (openssl checksum) (creator MD5) (digest_length MD5) 3;;
   assign_copy (openssl checksum) 3 1) two_contexts.
Proof.
  apply (X10_copy_ctor_is_ctor_then_assign checksum MD5 two_contexts 3 1 1
           (active EVP_md5 [x61; x62; x63]) (replicate 16 x00)).
  - done.
  - exact two_contexts_owns_1.
Defined.

Lemma X11_witness :
  (∃ w', (GenericHash_move_ctor (openssl checksum) (digest_length MD5) 3 1;;
          UpdateData_pack (openssl checksum) 3 [a_string [x64]];;
          Finalize (openssl checksum) (digest_length MD5) 3;;
          GetDigest (openssl checksum) 3) two_contexts =
         Returns (checksum_digest EVP_md5 [x61; x62; x63; x64]) w') ∧
  (∃ w', (assign_move (openssl checksum) (digest_length MD5) 2 1;;
          UpdateData_pack (openssl checksum) 2 [a_string [x64]];;
          Finalize (openssl checksum) (digest_length MD5) 2;;
          GetDigest (openssl checksum) 2) two_contexts =
         Returns (checksum_digest EVP_md5 [x61; x62; x63; x64]) w').
Proof.
  split.
  - refine (proj1 (X11_move_continues_the_stream checksum MD5 two_contexts 3 1 1
                     [x61; x62; x63] (replicate 16 x00) [a_string [x64]] _ _ _)).
    + done.
    + reflexivity.
    + exact two_contexts_owns_1.
  - refine (proj2 (X11_move_continues_the_stream checksum MD5 two_contexts 2 1 1
                     [x61; x62; x63] (replicate 16 x00) [a_string [x64]] _ _ _) _).
    + done.
    + reflexivity.
    + exact two_contexts_owns_1.
    + eexists. reflexivity.
Defined.

Lemma X13_witness :
  objects (final_world
             (UpdateData_pack (openssl checksum) 2
                [a_string [x61]; a_cstr [x62; x00]] two_contexts)) =
    objects two_contexts ∧
  GetDigest (openssl checksum) 2
    (final_world
       (UpdateData_pack (openssl checksum) 2
          [a_string []; a_cstr [x00; x62]] after_copy_and_move)) =
    Returns (checksum_digest EVP_md5 [x61; x62; x63])
      (final_world
         (UpdateData_pack (openssl checksum) 2
            [a_string []; a_cstr [x00; x62]] after_copy_and_move)).
Proof.
  split.
  - refine (proj1 (X13_updates_keep_stored_digest (Eng := openssl checksum)
             [a_string [x61]; a_cstr [x62; x00]] two_contexts _
             2 2 (active EVP_md5 []) (replicate 16 x00) two_contexts_owns_2 _)).
    reflexivity.
  - refine (proj2 (X13_updates_keep_stored_digest (Eng := openssl checksum)
             [a_string []; a_cstr [x00; x62]] after_copy_and_move _
             2 2 (finalised EVP_md5 [x61; x62; x63])
             (checksum_digest EVP_md5 [x61; x62; x63]) _ _)).
    + split; reflexivity.
    + reflexivity.
Defined.
